(** * web-ai: the model cache and the session life cycle of [src/session.ts]

    A shallow embedding of the [Session] class: the cache lookup of [init],
    [fetchData], the budget enforcement of [validateCache], and the guarded
    accessors [run], [inputNames] and [outputNames].

    The code is asynchronous TypeScript that talks to three collaborators:
    the [localforage] key/value store, the network ([fetch]) and the ONNX
    runtime.  Every [await] is run to completion where it stands, so a
    method is a function from a state to a completion and a state.  The
    collaborators are oracles of a [World]: each call to the outside reads
    the oracle at the current tick of a clock and advances the clock, so that
    every single call may succeed or fail independently of the others.

    Conventions:
    - byte counts and the budget are integers ([Z]); JavaScript numbers are
      exact on them below 2^53;
    - the store is a finite map from keys to blobs, and [localforage.keys()]
      enumerates it in the order of [map_to_list]; no statement below depends
      on which order that is;
    - the two assignments to [ort.env.wasm] at the head of [init] (lines
      45-46) configure the runtime and are not part of the state;
    - a function of the source that is long enough to be quoted in parts is
      split into named parts, each with the lines it stands for. *)

From Stdlib Require Import ZArith Lia Ascii.
From Equations Require Import Equations.
From stdpp Require Import gmap strings list fin_maps.

Local Open Scope Z_scope.

(** ** Data *)

(** An [ArrayBuffer] (or the [Uint8Array] that [pako.inflate] returns): only
    its bytes and its [byteLength] are ever read. *)
Abbreviation ArrayBuffer := (list Byte.byte).

Definition byteLength (b : ArrayBuffer) : Z := Z.of_nat (length b).

(** What a rejected promise or a [throw] carries. *)
Inductive Error : Type :=
| StoreError      (* a localforage promise rejects *)
| TypeError       (* a property of null or undefined is read *)
| NetworkError    (* fetch, or resp.arrayBuffer(), rejects *)
| DecodeError     (* pako.inflate throws *)
| CreateError     (* ort.InferenceSession.create rejects *)
| RunError        (* the runtime fails inside run *)
| NotInitialized. (* Error("the session is not initialized. Call `init()` method first.") *)

(** A line on the console. *)
Inductive LogEntry : Type :=
| Warn (msg : string)
| ErrorMsg (msg : string)
| ErrorObj (err : Error).

(** [ort.InferenceSession.OnnxValueMapType]: tensors by name; a tensor is
    opaque here. *)
Abbreviation OnnxValueMapType := (gmap string (list Z)).

(** An [ort.InferenceSession], seen from the three members the class uses;
    [ort_run] answers [None] when the runtime rejects. *)
Record InferenceSession : Type := {
  ort_inputNames : list string;
  ort_outputNames : list string;
  ort_run : OnnxValueMapType → option OnnxValueMapType
}.

(** [SessionParameters], lines 10-26.  [cacheSizeMB] is a whole number of
    megabytes, so that [cacheSizeMB * 1e6] is an integer. *)
Record SessionParameters : Type := {
  numThreads : Z;
  executionProviders : list string;
  memoryLimitMB : Z;
  cacheSizeMB : Z;
  wasmRoot : string;
  tokenizersPath : string
}.

Definition SessionParams : SessionParameters := {|
  numThreads := 0;
  executionProviders := ["wasm"%string];
  memoryLimitMB := 0;
  cacheSizeMB := 500;
  wasmRoot := "https://edge-ai-models.s3.us-east-2.amazonaws.com/onnx-13/";
  tokenizersPath := "https://edge-ai-models.s3.us-east-2.amazonaws.com/tokenizers.wasm"
|}.

(** The outside world.  [rejects t] tells whether the localforage call
    issued at tick [t] rejects; [responds t path] is the body the network
    returns for the [fetch] issued at tick [t] ([None]: the transfer fails);
    [pako_inflate] is the decompressor ([None]: it throws); [ort_create t]
    is [ort.InferenceSession.create] at tick [t]. *)
Record World : Type := {
  rejects : nat → bool;
  responds : nat → string → option ArrayBuffer;
  pako_inflate : ArrayBuffer → option ArrayBuffer;
  ort_create : nat → ArrayBuffer → option InferenceSession
}.

(** The state a method runs in: the two fields of the [Session] object
    ([ortSession], [cacheSize]), the contents of the localforage store, the
    console, the paths handed to [fetch] so far, and the clock. *)
Record State : Type := {
  ortSession : option InferenceSession;
  cacheSize : Z;
  localforage : gmap string ArrayBuffer;
  console : list LogEntry;
  requests : list string;
  clock : nat
}.

Definition tick (s : State) : State :=
  {| ortSession := ortSession s; cacheSize := cacheSize s;
     localforage := localforage s; console := console s;
     requests := requests s; clock := S (clock s) |}.

Definition with_store (f : gmap string ArrayBuffer → gmap string ArrayBuffer)
    (s : State) : State :=
  {| ortSession := ortSession s; cacheSize := cacheSize s;
     localforage := f (localforage s); console := console s;
     requests := requests s; clock := clock s |}.

Definition with_console (e : LogEntry) (s : State) : State :=
  {| ortSession := ortSession s; cacheSize := cacheSize s;
     localforage := localforage s; console := console s ++ [e];
     requests := requests s; clock := clock s |}.

Definition with_request (path : string) (s : State) : State :=
  {| ortSession := ortSession s; cacheSize := cacheSize s;
     localforage := localforage s; console := console s;
     requests := requests s ++ [path]; clock := clock s |}.

Definition with_ortSession (h : InferenceSession) (s : State) : State :=
  {| ortSession := Some h; cacheSize := cacheSize s;
     localforage := localforage s; console := console s;
     requests := requests s; clock := clock s |}.

(** ** Awaited computations *)

Inductive Completion (A : Type) : Type :=
| Normal (a : A)
| Throw (e : Error).
Arguments Normal {A} a.
Arguments Throw {A} e.

(** An async function run to completion.  The state reached is kept on a
    throw too: what was written before the throw stays written. *)
Definition Async (A : Type) : Type := State → Completion A * State.

Definition ret {A} (a : A) : Async A := λ s, (Normal a, s).

Definition throw {A} (e : Error) : Async A := λ s, (Throw e, s).

Definition bind {A B} (c : Async A) (k : A → Async B) : Async B :=
  λ s, match c s with
       | (Normal a, s') => k a s'
       | (Throw e, s') => (Throw e, s')
       end.

(** [try { c } catch (err) { h err }] *)
Definition try_catch {A} (c : Async A) (h : Error → Async A) : Async A :=
  λ s, match c s with
       | (Normal a, s') => (Normal a, s')
       | (Throw e, s') => h e s'
       end.

Notation "'let*' x ':=' c 'in' k" := (bind c (λ x, k))
  (at level 10, x name, c at level 100, k at level 200).
Notation "c ';;' k" := (bind c (λ _, k))
  (at level 100, k at level 200, right associativity).

Definition console_warn (msg : string) : Async unit :=
  λ s, (Normal (), with_console (Warn msg) s).

Definition console_error (msg : string) : Async unit :=
  λ s, (Normal (), with_console (ErrorMsg msg) s).

Definition console_error_obj (err : Error) : Async unit :=
  λ s, (Normal (), with_console (ErrorObj err) s).

Definition this_cacheSize : Async Z := λ s, (Normal (cacheSize s), s).

Definition this_ortSession : Async (option InferenceSession) :=
  λ s, (Normal (ortSession s), s).

(** ** Strings and the [Map] of [validateCache] *)

(** [s.split(sep)] for a one-character separator: never an empty array. *)
Fixpoint split (sep : Ascii.ascii) (s : string) : list string :=
  match s with
  | EmptyString => [EmptyString]
  | String c rest =>
      if Ascii.eqb c sep then EmptyString :: split sep rest
      else match split sep rest with
           | piece :: pieces => String c piece :: pieces
           | [] => [String c EmptyString]
           end
  end.

(** [Array.prototype.pop]: the last element, [undefined] for an empty array. *)
Definition pop (pieces : list string) : option string := last pieces.

(** Line 69: [modelPath.split(".").pop()]. *)
Definition extension (modelPath : string) : option string :=
  pop (split "."%char modelPath).

(** A JavaScript [Map<string, number>]: entries in insertion order, one per
    key. *)
Abbreviation JsMap := (list (string * Z)).

(** [m.set(key, v)]: a present key keeps its place, a new one goes last. *)
Fixpoint Map_set (key : string) (v : Z) (m : JsMap) : JsMap :=
  match m with
  | [] => [(key, v)]
  | (k, x) :: rest =>
      if decide (k = key) then (k, v) :: rest else (k, x) :: Map_set key v rest
  end.

(** [m.delete(key)] *)
Definition Map_delete (key : string) (m : JsMap) : JsMap :=
  filter (λ e, e.1 ≠ key) m.

Section Session.

Context (W : World).

(** ** The collaborators *)

(** A localforage call: the clock advances, and the call either rejects or
    acts on the store. *)
Definition store_call {A} (act : State → A * State) : Async A :=
  λ s, if rejects W (clock s) then (Throw StoreError, tick s)
       else let '(a, s') := act (tick s) in (Normal a, s').

(** [localforage.getItem(key)]: the blob, or [null] for a key that is not
    stored. *)
Definition getItem (key : string) : Async (option ArrayBuffer) :=
  store_call (λ s, (localforage s !! key, s)).

(** [localforage.keys()]: every key, in the store's enumeration order (here
    the order of [map_to_list]). *)
Definition keys : Async (list string) :=
  store_call (λ s, ((map_to_list (localforage s)).*1, s)).

Definition removeItem (key : string) : Async unit :=
  store_call (λ s, ((), with_store (delete key) s)).

Definition setItem (key : string) (data : ArrayBuffer) : Async unit :=
  store_call (λ s, ((), with_store (insert key data) s)).

(** [fetch(modelPath).then((resp) => resp.arrayBuffer())] *)
Definition fetch (modelPath : string) : Async ArrayBuffer :=
  λ s, let s' := tick (with_request modelPath s) in
       match responds W (clock s) modelPath with
       | Some body => (Normal body, s')
       | None => (Throw NetworkError, s')
       end.

Definition inflate (data : ArrayBuffer) : Async ArrayBuffer :=
  match pako_inflate W data with
  | Some raw => ret raw
  | None => throw DecodeError
  end.

Definition InferenceSession_create (modelData : ArrayBuffer) : Async InferenceSession :=
  λ s, match ort_create W (clock s) modelData with
       | Some h => (Normal h, tick s)
       | None => (Throw CreateError, tick s)
       end.

(** ** [validateCache], lines 83-104 *)

(** Lines 88-92: one read per key; the running total and the [Map] of sizes.
    A key that reads back [null] makes [data.byteLength] throw. *)
Fixpoint sizes_loop (cacheKeys : list string) (cacheSize : Z) (cacheItemSizes : JsMap)
    : Async (Z * JsMap) :=
  match cacheKeys with
  | [] => ret (cacheSize, cacheItemSizes)
  | key :: rest =>
      let* data := getItem key in
      match data with
      | None => throw TypeError
      | Some data =>
          sizes_loop rest (cacheSize + byteLength data)
            (Map_set key (byteLength data) cacheItemSizes)
      end
  end.

(** Lines 94-99: [while (newCacheSize > this.cacheSize)].  The first entry of
    the [Map] is [cacheItemSizes.entries().next().value]; on an empty [Map]
    that value is [undefined] and destructuring it throws. *)
Equations evict_loop (cacheItemSizes : JsMap) (newCacheSize : Z) : Async unit
  by wf (length cacheItemSizes) lt :=
evict_loop [] newCacheSize :=
  let* budget := this_cacheSize in
  if newCacheSize >? budget then throw TypeError else ret ();
evict_loop ((key, size) :: rest) newCacheSize :=
  let* budget := this_cacheSize in
  if newCacheSize >? budget then
    removeItem key;;
    evict_loop (Map_delete key ((key, size) :: rest)) (newCacheSize - size)
  else ret ().
Next Obligation.
  intros key size rest _ _ _ _. unfold Map_delete.
  rewrite filter_cons_False by (simpl; tauto).
  pose proof (length_filter (λ e : string * Z, e.1 ≠ key) rest).
  simpl. lia.
Qed.

(** Lines 85-92: the enumeration of the store that precedes the eviction. *)
Definition read_sizes : Async (Z * JsMap) :=
  let* cacheKeys := keys in
  sizes_loop cacheKeys 0 [].

Definition validateCache (modelData : ArrayBuffer) : Async unit :=
  try_catch
    (let* measured := read_sizes in
     let newCacheSize := measured.1 + byteLength modelData in
     evict_loop measured.2 newCacheSize)
    (λ err, console_error "unable to validate the cache";;
            console_error_obj err).

(** ** [fetchData], lines 68-81 *)

(** A promise that nobody awaits (line 78 calls [setItem] without [await]):
    its effect on the store happens, its rejection reaches no handler of the
    caller. *)
Definition unawaited {A} (c : Async A) : Async unit :=
  λ s, (Normal (), (c s).2).

(** Lines 69-73: the transfer, and the decompression the extension asks for. *)
Definition download (modelPath : string) : Async ArrayBuffer :=
  let extension := extension modelPath in
  let* modelData := fetch modelPath in
  if decide (extension = Some "gz"%string) then inflate modelData
  else ret modelData.

(** Lines 74-80: the size guard, the budget enforcement and the insert. *)
Definition store_or_warn (modelPath : string) (modelData : ArrayBuffer)
    : Async ArrayBuffer :=
  let* budget := this_cacheSize in
  if byteLength modelData >? budget then
    console_warn "the model is too large to be cached";;
    ret modelData
  else
    validateCache modelData;;
    unawaited (setItem modelPath modelData);;
    ret modelData.

Definition fetchData (modelPath : string) : Async ArrayBuffer :=
  let* modelData := download modelPath in
  store_or_warn modelPath modelData.

(** ** [init], lines 44-66 *)

(** Lines 47-59, the cache lookup that yields [modelData]. *)
Definition resolve (modelPath : string) : Async ArrayBuffer :=
  try_catch
    (let* cachedData := getItem modelPath in
     match cachedData with
     | Some cachedData => ret cachedData
     | None => fetchData modelPath
     end)
    (λ err, console_error "unable to load the data from cache";;
            console_error_obj err;;
            fetchData modelPath).

Definition init (modelPath : string) : Async unit :=
  let* modelData := resolve modelPath in
  let* session := InferenceSession_create modelData in
  λ s, (Normal (), with_ortSession session s).

(** [clearCache], lines 6-8. *)
Definition clearCache : Async unit :=
  store_call (λ s, ((), with_store (λ _, ∅) s)).

End Session.

(** ** The constructor and the guarded accessors *)

(** Lines 32-42: a fresh [Session] object next to a store, a console and a
    network log that exist already. *)
Definition constructor (params : SessionParameters) (s : State) : State :=
  {| ortSession := None; cacheSize := cacheSizeMB params * 1000000;
     localforage := localforage s; console := console s;
     requests := requests s; clock := clock s |}.

(** Lines 106-111. *)
Definition run (input : OnnxValueMapType) : Async OnnxValueMapType :=
  let* session := this_ortSession in
  match session with
  | None => throw NotInitialized
  | Some h =>
      match ort_run h input with
      | Some output => ret output
      | None => throw RunError
      end
  end.

(** Lines 113-118. *)
Definition inputNames : Async (list string) :=
  let* session := this_ortSession in
  match session with
  | None => throw NotInitialized
  | Some h => ret (ort_inputNames h)
  end.

(** Lines 120-125. *)
Definition outputNames : Async (list string) :=
  let* session := this_ortSession in
  match session with
  | None => throw NotInitialized
  | Some h => ret (ort_outputNames h)
  end.

(** ** [createSession], [src/sessionController.ts] *)


(** ** Runs of several calls, sample worlds and sample states *)

(** [fetchData] called on each path in turn, every call awaited. *)
Fixpoint fetch_all (W : World) (paths : list string) (s : State)
    : list (Completion ArrayBuffer) * State :=
  match paths with
  | [] => ([], s)
  | modelPath :: rest =>
      let '(r, s1) := fetchData W modelPath s in
      let '(rs, s2) := fetch_all W rest s1 in
      (r :: rs, s2)
  end.

(** A call that returned an artifact of at most [budget] bytes. *)
Definition returned_within (budget : Z) (r : Completion ArrayBuffer) : Prop :=
  match r with
  | Normal modelData => byteLength modelData ≤ budget
  | Throw _ => False
  end.

(** [s] ends in [suffix]. *)
Definition ends_with (suffix s : string) : Prop :=
  ∃ stem, s = (stem +:+ suffix)%string.

Definition blob (n : nat) : ArrayBuffer := replicate n Byte.x00.

Definition sample_handle : InferenceSession := {|
  ort_inputNames := ["input"%string];
  ort_outputNames := ["output"%string];
  ort_run := λ input, Some input
|}.

(** A world whose network answers every path with as many bytes as the path
    has characters, whose decompressor doubles its input, and whose store
    rejects at the ticks [failing] says. *)
Definition sample_world (failing : nat → bool) : World := {|
  rejects := failing;
  responds := λ _ path, Some (blob (String.length path));
  pako_inflate := λ data, Some (data ++ data);
  ort_create := λ _ _, Some sample_handle
|}.

(** A world with no network. *)
Definition offline_world : World := {|
  rejects := λ _, false;
  responds := λ _ _, None;
  pako_inflate := λ data, Some data;
  ort_create := λ _ _, Some sample_handle
|}.

(** A world like [sample_world] with a store that never rejects and a
    network that is down at the ticks [down] says. *)
Definition flaky_network_world (down : nat → bool) : World := {|
  rejects := λ _, false;
  responds := λ t path, if down t then None else Some (blob (String.length path));
  pako_inflate := λ data, Some (data ++ data);
  ort_create := λ _ _, Some sample_handle
|}.

(** A world like [sample_world] whose runtime rejects every model. *)
Definition rejecting_runtime_world : World := {|
  rejects := λ _, false;
  responds := λ _ path, Some (blob (String.length path));
  pako_inflate := λ data, Some (data ++ data);
  ort_create := λ _ _, None
|}.

Definition sample_state (budget : Z) (stored : gmap string ArrayBuffer)
    (session : option InferenceSession) : State := {|
  ortSession := session; cacheSize := budget; localforage := stored;
  console := []; requests := []; clock := 0
|}.

(** ** Vocabulary of the statements *)

Definition Zsum (l : list Z) : Z := foldr Z.add 0 l.

(** The entries of the store as the [Map] of [validateCache] sees them. *)
Definition sizes (l : list (string * ArrayBuffer)) : JsMap :=
  (λ kv, (kv.1, byteLength kv.2)) <$> l.

(** Total stored bytes. *)
Definition stored_bytes (m : gmap string ArrayBuffer) : Z :=
  Zsum (sizes (map_to_list m)).*2.

(** The store once the keys [ks] are removed. *)
Definition remove_all (ks : list string) (m : gmap string ArrayBuffer)
    : gmap string ArrayBuffer :=
  foldr delete m ks.

(** The character [c] occurs in [s]. *)
Fixpoint occurs (c : Ascii.ascii) (s : string) : bool :=
  match s with
  | EmptyString => false
  | String c' rest => Ascii.eqb c' c || occurs c rest
  end.

(** Everything but the store and the clock is as it was. *)
Definition untouched (s s' : State) : Prop :=
  ortSession s' = ortSession s ∧ cacheSize s' = cacheSize s ∧
  console s' = console s ∧ requests s' = requests s.

(** The two console lines of the [catch] of [init], lines 56-57. *)
Definition logged (err : Error) (s : State) : State :=
  with_console (ErrorObj err)
    (with_console (ErrorMsg "unable to load the data from cache") s).

(** No localforage call rejects. *)
Definition reliable (W : World) : Prop := ∀ t, rejects W t = false.

(** ** Lists of sizes and removal of keys *)

Lemma Zsum_app (l1 l2 : list Z) : Zsum (l1 ++ l2) = Zsum l1 + Zsum l2.
Proof. induction l1 as [|x l1 IH]; simpl; lia. Qed.

Lemma Zsum_take_drop (j : nat) (l : list Z) :
  Zsum (take j l) + Zsum (drop j l) = Zsum l.
Proof. rewrite <- Zsum_app, take_drop. reflexivity. Qed.

#[export] Instance Zsum_perm : Proper ((≡ₚ) ==> (=)) Zsum.
Proof. induction 1; simpl; lia. Qed.

Lemma sizes_fst (l : list (string * ArrayBuffer)) : (sizes l).*1 = l.*1.
Proof. induction l as [|[k v] l IH]; [done|]. cbn. f_equal. exact IH. Qed.

Lemma sizes_cons k v (l : list (string * ArrayBuffer)) :
  Zsum (sizes ((k, v) :: l)).*2 = byteLength v + Zsum (sizes l).*2.
Proof. reflexivity. Qed.

Lemma sizes_nonneg (l : list (string * ArrayBuffer)) : 0 ≤ Zsum (sizes l).*2.
Proof.
  induction l as [|[k v] l IH]; [done|].
  rewrite sizes_cons. unfold byteLength. lia.
Qed.

Lemma stored_bytes_nonneg (m : gmap string ArrayBuffer) : 0 ≤ stored_bytes m.
Proof. apply sizes_nonneg. Qed.

Lemma stored_bytes_perm (m : gmap string ArrayBuffer) l :
  map_to_list m ≡ₚ l → stored_bytes m = Zsum (sizes l).*2.
Proof. intros H. unfold stored_bytes, sizes. by rewrite H. Qed.

Lemma remove_all_delete ks k (m : gmap string ArrayBuffer) :
  remove_all ks (delete k m) = delete k (remove_all ks m).
Proof. unfold remove_all. by rewrite delete_foldr_delete. Qed.

(** Removing a prefix of the enumeration leaves the rest of it. *)
Lemma map_to_list_remove_all (l : list (string * ArrayBuffer)) :
  ∀ (m : gmap string ArrayBuffer) j,
    map_to_list m ≡ₚ l →
    map_to_list (remove_all (take j l.*1) m) ≡ₚ drop j l.
Proof.
  induction l as [|[k v] l IH]; intros m j Hm.
  - cbn. rewrite take_nil, drop_nil. cbn. done.
  - destruct j as [|j]; [done|]. simpl.
    assert (m !! k = Some v) as Hk.
    { apply elem_of_map_to_list. rewrite Hm. left. }
    rewrite <- remove_all_delete. apply IH.
    apply (Permutation_cons_inv (a := (k, v))).
    rewrite map_to_list_delete by done. done.
Qed.

Lemma stored_bytes_remove_all (m : gmap string ArrayBuffer) j :
  stored_bytes (remove_all (take j (map_to_list m).*1) m)
  = stored_bytes m - Zsum (take j (sizes (map_to_list m)).*2).
Proof.
  rewrite (stored_bytes_perm _ (drop j (map_to_list m)))
    by (by apply map_to_list_remove_all).
  unfold stored_bytes.
  pose proof (Zsum_take_drop j (sizes (map_to_list m)).*2) as H.
  unfold sizes in *. rewrite !fmap_drop. lia.
Qed.

Lemma stored_bytes_insert (m : gmap string ArrayBuffer) k v :
  stored_bytes (<[k:=v]> m) ≤ stored_bytes m + byteLength v.
Proof.
  rewrite <- (insert_delete_eq m k v).
  rewrite (stored_bytes_perm _ ((k, v) :: map_to_list (delete k m)))
    by (apply map_to_list_insert, lookup_delete_eq).
  rewrite sizes_cons. destruct (m !! k) as [v'|] eqn:Hk.
  - rewrite (stored_bytes_perm m ((k, v') :: map_to_list (delete k m)))
      by (by rewrite map_to_list_delete).
    rewrite sizes_cons. unfold byteLength. lia.
  - rewrite delete_id by done. unfold stored_bytes. lia.
Qed.

(** ** The [Map] of sizes *)

Lemma Map_delete_fresh key (m : JsMap) : key ∉ m.*1 → Map_delete key m = m.
Proof.
  unfold Map_delete. induction m as [|[k x] m IH]; intros Hk; [done|].
  rewrite fmap_cons, not_elem_of_cons in Hk. destruct Hk as [Hne Hk].
  rewrite filter_cons_True by (simpl in *; naive_solver). by rewrite IH.
Qed.

Lemma Map_delete_head key size (rest : JsMap) :
  key ∉ rest.*1 → Map_delete key ((key, size) :: rest) = rest.
Proof.
  intros Hk. unfold Map_delete. rewrite filter_cons_False by (simpl; tauto).
  by apply Map_delete_fresh.
Qed.

Lemma Map_set_fresh key v (m : JsMap) :
  key ∉ m.*1 → Map_set key v m = m ++ [(key, v)].
Proof.
  induction m as [|[k x] m IH]; intros Hk; [done|].
  rewrite fmap_cons, not_elem_of_cons in Hk. destruct Hk as [Hne Hk].
  simpl. rewrite decide_False by (simpl in *; naive_solver). by rewrite IH.
Qed.

(** ** Frames *)

Lemma untouched_refl s : untouched s s.
Proof. by repeat split. Qed.

Lemma untouched_trans s1 s2 s3 :
  untouched s1 s2 → untouched s2 s3 → untouched s1 s3.
Proof. unfold untouched. intros (?&?&?&?) (?&?&?&?). repeat split; congruence. Qed.

Lemma untouched_tick s : untouched s (tick s).
Proof. by repeat split. Qed.

Lemma untouched_with_store f s : untouched s (with_store f s).
Proof. by repeat split. Qed.

Section Enforcer.

Context (W : World).

(** *** One localforage call *)

Lemma store_call_rejected {A} (act : State → A * State) s :
  rejects W (clock s) = true → store_call W act s = (Throw StoreError, tick s).
Proof. intros H. unfold store_call. by rewrite H. Qed.

Lemma getItem_ok key s :
  rejects W (clock s) = false →
  getItem W key s = (Normal (localforage s !! key), tick s).
Proof. intros H. unfold getItem, store_call. by rewrite H. Qed.

Lemma removeItem_ok key s :
  rejects W (clock s) = false →
  removeItem W key s = (Normal (), with_store (delete key) (tick s)).
Proof. intros H. unfold removeItem, store_call. by rewrite H. Qed.

Lemma setItem_ok key data s :
  rejects W (clock s) = false →
  setItem W key data s = (Normal (), with_store (insert key data) (tick s)).
Proof. intros H. unfold setItem, store_call. by rewrite H. Qed.

Lemma keys_ok s :
  rejects W (clock s) = false →
  keys W s = (Normal (map_to_list (localforage s)).*1, tick s).
Proof. intros H. unfold keys, store_call. by rewrite H. Qed.

(** *** The eviction loop *)

Lemma evict_loop_done entries newCacheSize s :
  (newCacheSize >? cacheSize s) = false →
  evict_loop W entries newCacheSize s = (Normal (), s).
Proof.
  intros H. destruct entries as [|[key size] rest].
  - rewrite evict_loop_equation_1. unfold bind, this_cacheSize. by rewrite H.
  - rewrite evict_loop_equation_2. unfold bind, this_cacheSize. by rewrite H.
Qed.

Lemma evict_loop_empty newCacheSize s :
  (newCacheSize >? cacheSize s) = true →
  evict_loop W [] newCacheSize s = (Throw TypeError, s).
Proof.
  intros H. rewrite evict_loop_equation_1.
  unfold bind, this_cacheSize. by rewrite H.
Qed.

Lemma evict_loop_step key size rest newCacheSize s :
  (newCacheSize >? cacheSize s) = true →
  evict_loop W ((key, size) :: rest) newCacheSize s
  = (removeItem W key;;
     evict_loop W (Map_delete key ((key, size) :: rest)) (newCacheSize - size)) s.
Proof.
  intros H. rewrite evict_loop_equation_2.
  unfold bind at 1. unfold this_cacheSize. by rewrite H.
Qed.

(** The loop removes a prefix of the entries it was given, each one while the
    projected size was above the budget; when it ends normally the projected
    size is within the budget, and on a store that never rejects it can only
    throw once every entry is gone. *)
Lemma evict_loop_spec (entries : JsMap) :
  NoDup entries.*1 →
  ∀ newCacheSize s,
  ∃ j, (j ≤ length entries)%nat ∧
    localforage (evict_loop W entries newCacheSize s).2
      = remove_all (take j entries.*1) (localforage s) ∧
    untouched s (evict_loop W entries newCacheSize s).2 ∧
    (∀ i, (i < j)%nat → newCacheSize - Zsum (take i entries.*2) > cacheSize s) ∧
    ((evict_loop W entries newCacheSize s).1 = Normal () →
       newCacheSize - Zsum (take j entries.*2) ≤ cacheSize s) ∧
    (reliable W → (evict_loop W entries newCacheSize s).1 ≠ Normal () →
       j = length entries ∧ newCacheSize - Zsum entries.*2 > cacheSize s).
Proof.
  induction entries as [|[key size] rest IH]; intros Hnd newCacheSize s;
    (destruct (newCacheSize >? cacheSize s) eqn:Hgt;
      [|exists 0%nat; rewrite evict_loop_done by done; cbn;
        split; [lia|]; split; [done|]; split; [apply untouched_refl|];
        split; [lia|]; split; [lia|]; by intros _ []]).
  - exists 0%nat. rewrite evict_loop_empty by done. cbn.
    split; [lia|]. split; [done|]. split; [apply untouched_refl|].
    split; [lia|]. split; [done|]. intros _ _. split; [done|]. lia.
  - rewrite evict_loop_step by done.
    rewrite fmap_cons, NoDup_cons in Hnd. destruct Hnd as [Hfresh Hnd].
    rewrite Map_delete_head by done. unfold bind.
    destruct (rejects W (clock s)) eqn:Hrej.
    + unfold removeItem. rewrite store_call_rejected by done.
      exists 0%nat. cbn.
      split; [lia|]. split; [done|]. split; [apply untouched_tick|].
      split; [lia|]. split; [done|].
      intros Hrel. by rewrite Hrel in Hrej.
    + rewrite removeItem_ok by done.
      destruct (IH Hnd (newCacheSize - size)
                  (with_store (delete key) (tick s)))
        as (j & Hj & Hst & Hun & Hbefore & Hafter & Hrel).
      exists (S j). cbn [length].
      split; [lia|]. split.
      { rewrite Hst. cbn. by rewrite remove_all_delete. }
      split.
      { eapply untouched_trans; [|exact Hun].
        eapply untouched_trans; [apply untouched_tick|].
        apply untouched_with_store. }
      split.
      { intros [|i] Hi.
        - change (newCacheSize - 0 > cacheSize s). lia.
        - change (newCacheSize - (size + Zsum (take i rest.*2)) > cacheSize s).
          specialize (Hbefore i ltac:(lia)).
          change (cacheSize (with_store _ _)) with (cacheSize s) in Hbefore.
          lia. }
      change (cacheSize (with_store _ _)) with (cacheSize s) in Hafter, Hrel.
      split.
      { intros Hn. specialize (Hafter Hn).
        change (newCacheSize - (size + Zsum (take j rest.*2)) ≤ cacheSize s).
        lia. }
      intros Hr Hn. destruct (Hrel Hr Hn) as [-> Hall].
      split; [done|].
      change (newCacheSize - (size + Zsum rest.*2) > cacheSize s). lia.
Qed.

(** *** The enumeration *)

(** Reading the sizes of stored entries either rejects at some call or
    yields their total and their [Map]; the store is only read. *)
Lemma sizes_loop_spec (l : list (string * ArrayBuffer)) :
  ∀ cacheSize0 (m : JsMap) s,
    (∀ k v, (k, v) ∈ l → localforage s !! k = Some v) →
    NoDup (m.*1 ++ l.*1) →
    localforage (sizes_loop W l.*1 cacheSize0 m s).2 = localforage s ∧
    untouched s (sizes_loop W l.*1 cacheSize0 m s).2 ∧
    ((sizes_loop W l.*1 cacheSize0 m s).1
       = Normal (cacheSize0 + Zsum (sizes l).*2, m ++ sizes l) ∨
     (sizes_loop W l.*1 cacheSize0 m s).1 = Throw StoreError) ∧
    (reliable W →
     (sizes_loop W l.*1 cacheSize0 m s).1
       = Normal (cacheSize0 + Zsum (sizes l).*2, m ++ sizes l)).
Proof.
  induction l as [|[k v] l IH]; intros acc m s Hin Hnd.
  - cbn. rewrite Z.add_0_r, app_nil_r.
    split; [done|]. split; [apply untouched_refl|]. split; [by left|done].
  - rewrite fmap_cons. cbn [sizes_loop fst]. unfold bind.
    destruct (rejects W (clock s)) eqn:Hrej.
    + unfold getItem. rewrite store_call_rejected by done. cbn.
      split; [done|]. split; [apply untouched_tick|]. split; [by right|].
      intros Hrel. by rewrite Hrel in Hrej.
    + rewrite getItem_ok by done. rewrite (Hin k v) by left.
      assert (k ∉ m.*1) as Hk.
      { rewrite fmap_cons in Hnd. apply NoDup_app in Hnd as (_ & Hd & _).
        intros Hm. apply (Hd _ Hm). left. }
      rewrite Map_set_fresh by done.
      destruct (IH (acc + byteLength v) (m ++ [(k, byteLength v)]) (tick s))
        as (Hst & Hun & Hres & Hrel).
      { intros k' v' H'. apply Hin. by right. }
      { rewrite fmap_app, <- app_assoc. exact Hnd. }
      rewrite sizes_cons, Z.add_assoc.
      replace (m ++ sizes ((k, v) :: l))
        with ((m ++ [(k, byteLength v)]) ++ sizes l)
        by (by rewrite <- app_assoc).
      split; [by rewrite Hst|].
      split; [eapply untouched_trans; [apply untouched_tick|exact Hun]|].
      split; [exact Hres|exact Hrel].
Qed.

Lemma read_sizes_spec s :
  localforage (read_sizes W s).2 = localforage s ∧
  untouched s (read_sizes W s).2 ∧
  ((read_sizes W s).1
     = Normal (stored_bytes (localforage s), sizes (map_to_list (localforage s))) ∨
   (read_sizes W s).1 = Throw StoreError) ∧
  (reliable W →
   (read_sizes W s).1
     = Normal (stored_bytes (localforage s), sizes (map_to_list (localforage s)))).
Proof.
  unfold read_sizes, bind.
  destruct (rejects W (clock s)) eqn:Hrej.
  - unfold keys. rewrite store_call_rejected by done. cbn.
    split; [done|]. split; [apply untouched_tick|]. split; [by right|].
    intros Hrel. by rewrite Hrel in Hrej.
  - rewrite keys_ok by done.
    destruct (sizes_loop_spec (map_to_list (localforage s)) 0 [] (tick s))
      as (Hst & Hun & Hres & Hrel).
    { intros k v Hkv. by apply elem_of_map_to_list. }
    { apply NoDup_fst_map_to_list. }
    rewrite Z.add_0_l, app_nil_l in Hres, Hrel.
    split; [exact Hst|].
    split; [eapply untouched_trans; [apply untouched_tick|exact Hun]|].
    split; [exact Hres|exact Hrel].
Qed.

(** *** [validateCache] as a whole *)

(** The enforcer always returns normally.  It removes the first [j] keys of
    the store's enumeration, each one while the projected size was above the
    budget, and touches nothing else but the console.  When no store call
    rejects and the incoming artifact fits the budget by itself, it logs
    nothing and ends with the projected size within the budget. *)
Lemma validateCache_spec modelData s :
  ∃ j, (j ≤ length (map_to_list (localforage s)))%nat ∧
    (validateCache W modelData s).1 = Normal () ∧
    localforage (validateCache W modelData s).2
      = remove_all (take j (map_to_list (localforage s)).*1) (localforage s) ∧
    ortSession (validateCache W modelData s).2 = ortSession s ∧
    cacheSize (validateCache W modelData s).2 = cacheSize s ∧
    requests (validateCache W modelData s).2 = requests s ∧
    (∀ i, (i < j)%nat →
       stored_bytes (localforage s) + byteLength modelData
       - Zsum (take i (sizes (map_to_list (localforage s))).*2) > cacheSize s) ∧
    (console (validateCache W modelData s).2 = console s ∨
     ∃ err, console (validateCache W modelData s).2
       = console s ++ [ErrorMsg "unable to validate the cache"; ErrorObj err]) ∧
    (reliable W → byteLength modelData ≤ cacheSize s →
       console (validateCache W modelData s).2 = console s ∧
       stored_bytes (localforage s) + byteLength modelData
       - Zsum (take j (sizes (map_to_list (localforage s))).*2) ≤ cacheSize s).
Proof.
  destruct (read_sizes_spec s) as (Hst & Hun & Hres & Hrel).
  unfold validateCache, try_catch, bind.
  destruct (read_sizes W s) as [[measured|err] s1] eqn:Hread; cbn [fst snd] in *.
  - assert (measured = (stored_bytes (localforage s),
                        sizes (map_to_list (localforage s)))) as ->.
    { destruct Hres as [Hres|Hres]; congruence. }
    cbn [fst snd].
    set (entries := sizes (map_to_list (localforage s))).
    set (projected := stored_bytes (localforage s) + byteLength modelData).
    destruct (evict_loop_spec entries) with (newCacheSize := projected) (s := s1)
      as (j & Hj & Hst' & Hun' & Hbefore & Hafter & Hthrow).
    { unfold entries. rewrite sizes_fst. apply NoDup_fst_map_to_list. }
    destruct Hun as (Ho & Hc & Hl & Hq).
    destruct Hun' as (Ho' & Hc' & Hl' & Hq').
    rewrite Hc in Hbefore, Hafter, Hthrow. rewrite Hst in Hst'.
    assert (entries.*1 = (map_to_list (localforage s)).*1) as Hfst
      by apply sizes_fst.
    assert (length entries = length (map_to_list (localforage s))) as Hlen
      by apply length_fmap.
    rewrite Hfst in Hst'. rewrite Hlen in Hj.
    exists j.
    destruct (evict_loop W entries projected s1) as [[[]|err] s2] eqn:Hloop;
      cbn [fst snd] in *.
    + split; [done|]. split; [done|]. split; [done|].
      split; [congruence|]. split; [congruence|]. split; [congruence|].
      split; [done|]. split; [left; congruence|].
      intros _ _. split; [congruence|]. by apply Hafter.
    + split; [done|]. split; [done|]. split; [done|].
      split; [cbn; congruence|]. split; [cbn; congruence|].
      split; [cbn; congruence|]. split; [done|].
      split.
      { right. exists err. cbn. rewrite Hl', Hl, <- app_assoc. done. }
      intros Hr Hfit. destruct (Hthrow Hr) as [-> Hall]; [done|].
      exfalso. unfold projected, stored_bytes in Hall. fold entries in Hall. lia.
  - exists 0%nat. cbn.
    destruct Hun as (Ho & Hc & Hl & Hq).
    split; [lia|]. split; [done|]. split; [done|].
    split; [done|]. split; [done|]. split; [done|]. split; [lia|].
    split.
    { right. exists err. rewrite Hl, <- app_assoc. done. }
    intros Hr _. specialize (Hrel Hr). congruence.
Qed.

End Enforcer.

Section Fetching.

Context (W : World).

(** ** [fetchData] *)

(** The transfer and the decompression read the network and nothing else. *)
Lemma download_frame modelPath s :
  localforage (download W modelPath s).2 = localforage s ∧
  ortSession (download W modelPath s).2 = ortSession s ∧
  cacheSize (download W modelPath s).2 = cacheSize s ∧
  console (download W modelPath s).2 = console s ∧
  requests (download W modelPath s).2 = requests s ++ [modelPath].
Proof.
  unfold download, bind, fetch, inflate, ret, throw.
  destruct (responds W (clock s) modelPath) as [body|]; [|done].
  destruct (decide (extension modelPath = Some "gz"%string)); [|done].
  by destruct (pako_inflate W body).
Qed.

Lemma download_result modelPath s :
  (download W modelPath s).1 =
    match responds W (clock s) modelPath with
    | None => Throw NetworkError
    | Some body =>
        if decide (extension modelPath = Some "gz"%string) then
          match pako_inflate W body with
          | Some raw => Normal raw
          | None => Throw DecodeError
          end
        else Normal body
    end.
Proof.
  unfold download, bind, fetch, inflate, ret, throw.
  destruct (responds W (clock s) modelPath) as [body|]; [|done].
  destruct (decide (extension modelPath = Some "gz"%string)); [|done].
  by destruct (pako_inflate W body).
Qed.

Lemma store_or_warn_oversized modelPath modelData s :
  byteLength modelData > cacheSize s →
  store_or_warn W modelPath modelData s
  = (Normal modelData,
     with_console (Warn "the model is too large to be cached") s).
Proof.
  intros Hbig. unfold store_or_warn, bind, this_cacheSize.
  assert ((byteLength modelData >? cacheSize s) = true) as -> by lia.
  reflexivity.
Qed.

Lemma store_or_warn_fits modelPath modelData s :
  byteLength modelData ≤ cacheSize s →
  store_or_warn W modelPath modelData s
  = (Normal modelData,
     (setItem W modelPath modelData (validateCache W modelData s).2).2).
Proof.
  intros Hfit. unfold store_or_warn, bind at 1. unfold this_cacheSize.
  assert ((byteLength modelData >? cacheSize s) = false) as -> by lia.
  destruct (validateCache_spec W modelData s) as (j & _ & Hn & _).
  unfold bind. destruct (validateCache W modelData s) as [[[]|e] s1]; [|done].
  reflexivity.
Qed.

(** Lines 74-80 hand the bytes back whatever the store does. *)
Lemma store_or_warn_normal modelPath modelData s :
  (store_or_warn W modelPath modelData s).1 = Normal modelData.
Proof.
  destruct (Z_le_gt_dec (byteLength modelData) (cacheSize s)).
  - by rewrite store_or_warn_fits.
  - by rewrite store_or_warn_oversized.
Qed.

Lemma setItem_frame key data s :
  ortSession (setItem W key data s).2 = ortSession s ∧
  cacheSize (setItem W key data s).2 = cacheSize s ∧
  console (setItem W key data s).2 = console s ∧
  requests (setItem W key data s).2 = requests s.
Proof. unfold setItem, store_call. by destruct (rejects W (clock s)). Qed.

Lemma store_or_warn_frame modelPath modelData s :
  ortSession (store_or_warn W modelPath modelData s).2 = ortSession s ∧
  cacheSize (store_or_warn W modelPath modelData s).2 = cacheSize s ∧
  requests (store_or_warn W modelPath modelData s).2 = requests s.
Proof.
  destruct (Z_le_gt_dec (byteLength modelData) (cacheSize s)).
  - rewrite store_or_warn_fits by done. cbn [snd].
    destruct (setItem_frame modelPath modelData
                (validateCache W modelData s).2) as (-> & -> & _ & ->).
    destruct (validateCache_spec W modelData s)
      as (j & _ & _ & _ & -> & -> & -> & _). done.
  - by rewrite store_or_warn_oversized.
Qed.

Lemma fetchData_unfold modelPath s :
  fetchData W modelPath s =
    match download W modelPath s with
    | (Normal modelData, s1) => store_or_warn W modelPath modelData s1
    | (Throw e, s1) => (Throw e, s1)
    end.
Proof. reflexivity. Qed.

Lemma fetchData_frame modelPath s :
  ortSession (fetchData W modelPath s).2 = ortSession s ∧
  cacheSize (fetchData W modelPath s).2 = cacheSize s ∧
  requests (fetchData W modelPath s).2 = requests s ++ [modelPath].
Proof.
  rewrite fetchData_unfold.
  destruct (download_frame modelPath s) as (_ & Ho & Hc & _ & Hq).
  destruct (download W modelPath s) as [[b|e] s1]; cbn [snd] in *; [|done].
  destruct (store_or_warn_frame modelPath b s1) as (-> & -> & ->). done.
Qed.

(** [fetchData] throws what the transfer or the decompressor throws, and
    nothing that comes from the store. *)
Lemma fetchData_outcome modelPath s :
  (fetchData W modelPath s).1 = (download W modelPath s).1.
Proof.
  rewrite fetchData_unfold.
  destruct (download W modelPath s) as [[b|e] s1]; [|done].
  apply store_or_warn_normal.
Qed.

(** On a store that never rejects, an artifact that fits the budget leaves
    the store within the budget, and is stored. *)
Lemma store_or_warn_within_budget modelPath modelData s :
  reliable W → byteLength modelData ≤ cacheSize s →
  stored_bytes (localforage (store_or_warn W modelPath modelData s).2)
    ≤ cacheSize s ∧
  localforage (store_or_warn W modelPath modelData s).2 !! modelPath
    = Some modelData.
Proof.
  intros Hrel Hfit. rewrite store_or_warn_fits by done. cbn [snd].
  rewrite setItem_ok by apply Hrel. cbn [snd].
  destruct (validateCache_spec W modelData s)
    as (j & _ & _ & Hst & _ & _ & _ & _ & _ & Hend).
  destruct (Hend Hrel Hfit) as [_ Hle].
  change (localforage (with_store ?f (tick ?s0))) with (f (localforage s0)).
  rewrite Hst. split; [|apply lookup_insert_eq].
  etrans; [apply stored_bytes_insert|].
  rewrite stored_bytes_remove_all. lia.
Qed.

End Fetching.

(** * The claims *)

(** ** The budget invariant *)

Lemma fetchData_within_budget W modelPath s :
  reliable W →
  returned_within (cacheSize s) (fetchData W modelPath s).1 →
  stored_bytes (localforage (fetchData W modelPath s).2) ≤ cacheSize s.
Proof.
  intros Hrel. rewrite fetchData_unfold.
  destruct (download_frame W modelPath s) as (_ & _ & Hc & _).
  destruct (download W modelPath s) as [[b|e] s1]; cbn [fst snd] in *; [|done].
  rewrite store_or_warn_normal. cbn. intros Hfit. rewrite <- Hc in *.
  by apply store_or_warn_within_budget.
Qed.

(** C1.  Budget invariant: on a store whose calls do not reject, after every
    non-empty sequence of [fetchData] calls that each returned an artifact of
    at most [cacheSize] bytes, the bytes stored in localforage sum to at most
    [cacheSize], whatever the store held before the sequence. *)
Theorem budget_invariant W (paths : list string) s :
  reliable W →
  paths ≠ [] →
  Forall (returned_within (cacheSize s)) (fetch_all W paths s).1 →
  stored_bytes (localforage (fetch_all W paths s).2) ≤ cacheSize s.
Proof.
  intros Hrel. revert s.
  induction paths as [|modelPath rest IH]; intros s Hne Hall; [done|].
  cbn [fetch_all] in *.
  pose proof (fetchData_within_budget W modelPath s Hrel) as Hone.
  destruct (fetchData_frame W modelPath s) as (_ & Hc & _).
  destruct (fetchData W modelPath s) as [r s1]; cbn [fst snd] in *.
  specialize (IH s1).
  destruct (fetch_all W rest s1) as [rs s2] eqn:Hrest; cbn [fst snd] in *.
  apply Forall_cons in Hall as [Hr Hrs].
  destruct rest as [|next rest'].
  - cbn in Hrest. injection Hrest as <- <-. by apply Hone.
  - rewrite Hc in IH. by apply IH.
Qed.

Lemma budget_invariant_witness :
  stored_bytes
    (localforage
       (fetch_all (sample_world (λ _, false))
          ["abcd"; "efgh"; "ijkl"]%string (sample_state 10 ∅ None)).2)
  ≤ 10.
Proof.
  apply (budget_invariant (sample_world (λ _, false))
           ["abcd"; "efgh"; "ijkl"]%string (sample_state 10 ∅ None)).
  - intros t. reflexivity.
  - discriminate.
  - vm_compute. repeat constructor; discriminate.
Defined.

(** ** Oversized artifacts and the exact budget *)

(** C3.  Oversized artifact never cached: when the downloaded (and, where the
    extension asks for it, decompressed) artifact is strictly larger than
    [cacheSize], [fetchData] returns it, leaves localforage exactly as it
    was (nothing inserted, nothing evicted), and adds one line to the
    console, the warning. *)
Theorem oversized_artifact_not_cached W modelPath s modelData s1 :
  download W modelPath s = (Normal modelData, s1) →
  byteLength modelData > cacheSize s →
  (fetchData W modelPath s).1 = Normal modelData ∧
  localforage (fetchData W modelPath s).2 = localforage s ∧
  console (fetchData W modelPath s).2
    = console s ++ [Warn "the model is too large to be cached"].
Proof.
  intros Hdl Hbig.
  destruct (download_frame W modelPath s) as (Hst & _ & Hc & Hl & _).
  rewrite fetchData_unfold. rewrite Hdl in *. cbn [snd] in *.
  rewrite store_or_warn_oversized by lia. cbn. by rewrite Hst, Hl.
Qed.

Lemma oversized_artifact_not_cached_witness :
  let W := sample_world (λ _, false) in
  let s := sample_state 3 {[ "a"%string := blob 2 ]} None in
  (fetchData W "abcd" s).1 = Normal (blob 4) ∧
  localforage (fetchData W "abcd" s).2 = localforage s ∧
  console (fetchData W "abcd" s).2
    = console s ++ [Warn "the model is too large to be cached"].
Proof.
  intros W s.
  apply (oversized_artifact_not_cached W "abcd" s (blob 4)
           (tick (with_request "abcd" s))).
  - reflexivity.
  - reflexivity.
Defined.

Lemma stored_bytes_insert_ge (m : gmap string ArrayBuffer) k v :
  byteLength v ≤ stored_bytes (<[k:=v]> m).
Proof.
  rewrite <- (insert_delete_eq m k v).
  rewrite (stored_bytes_perm _ ((k, v) :: map_to_list (delete k m)))
    by (apply map_to_list_insert, lookup_delete_eq).
  rewrite sizes_cons. pose proof (sizes_nonneg (map_to_list (delete k m))). lia.
Qed.

(** C10.  An artifact of exactly [cacheSize] bytes is cached: the guard
    [byteLength > cacheSize] is strict, so [validateCache] runs and then
    [setItem] stores the artifact under its path (provided that [setItem]
    call is not rejected); no warning is logged, and on a store that never
    rejects the stored bytes then sum to exactly [cacheSize]. *)
Theorem exact_budget_artifact_cached W modelPath s modelData s1 :
  download W modelPath s = (Normal modelData, s1) →
  byteLength modelData = cacheSize s →
  rejects W (clock (validateCache W modelData s1).2) = false →
  (fetchData W modelPath s).1 = Normal modelData ∧
  localforage (fetchData W modelPath s).2
    = <[modelPath := modelData]> (localforage (validateCache W modelData s1).2) ∧
  localforage (fetchData W modelPath s).2 !! modelPath = Some modelData ∧
  (console (fetchData W modelPath s).2 = console s ∨
   ∃ err, console (fetchData W modelPath s).2
     = console s ++ [ErrorMsg "unable to validate the cache"; ErrorObj err]) ∧
  (reliable W →
   stored_bytes (localforage (fetchData W modelPath s).2) = cacheSize s).
Proof.
  intros Hdl Hsize Hset.
  destruct (download_frame W modelPath s) as (Hst & _ & Hc & Hl & _).
  rewrite fetchData_unfold. rewrite Hdl in *. cbn [snd] in *.
  rewrite store_or_warn_fits by lia.
  rewrite setItem_ok by done. cbn [fst snd].
  change (localforage (with_store ?f (tick ?s0))) with (f (localforage s0)).
  change (console (with_store ?f (tick ?s0))) with (console s0).
  split; [done|]. split; [done|]. split; [apply lookup_insert_eq|].
  destruct (validateCache_spec W modelData s1)
    as (j & _ & _ & Hev & _ & _ & _ & _ & Hlog & Hend).
  rewrite Hl in Hlog. split; [exact Hlog|].
  intros Hrel. destruct (Hend Hrel) as [_ Hle]; [lia|].
  pose proof (stored_bytes_remove_all (localforage s1) j) as Hrem.
  rewrite <- Hev in Hrem.
  pose proof (stored_bytes_nonneg (localforage (validateCache W modelData s1).2)).
  pose proof (stored_bytes_insert
                (localforage (validateCache W modelData s1).2) modelPath modelData).
  pose proof (stored_bytes_insert_ge
                (localforage (validateCache W modelData s1).2) modelPath modelData).
  lia.
Qed.

Lemma exact_budget_artifact_cached_witness :
  let W := sample_world (λ _, false) in
  let s := sample_state 4 {[ "a"%string := blob 2 ]} None in
  (fetchData W "abcd" s).1 = Normal (blob 4) ∧
  localforage (fetchData W "abcd" s).2 !! "abcd"%string = Some (blob 4) ∧
  stored_bytes (localforage (fetchData W "abcd" s).2) = 4.
Proof.
  intros W s.
  destruct (exact_budget_artifact_cached W "abcd" s (blob 4)
              (tick (with_request "abcd" s)))
    as (Hret & _ & Hin & _ & Hsum).
  - reflexivity.
  - reflexivity.
  - reflexivity.
  - split; [exact Hret|]. split; [exact Hin|]. apply Hsum. intros t. reflexivity.
Defined.

(** ** The eviction procedure *)

(** C6.  Eviction terminates: for every store content and every incoming
    artifact, [validateCache] returns (normally); what it removed is a prefix
    of the store's key enumeration, so at most every existing entry; each
    entry it removed was removed while the projected total (stored bytes plus
    incoming size, minus what was already evicted) was above [cacheSize];
    and it removes nothing at all when the projected total is within
    [cacheSize] from the start. *)
Theorem eviction_terminates_and_stops W modelData s :
  ∃ j s',
    validateCache W modelData s = (Normal (), s') ∧
    (j ≤ length (map_to_list (localforage s)))%nat ∧
    localforage s'
      = remove_all (take j (map_to_list (localforage s)).*1) (localforage s) ∧
    (∀ i, (i < j)%nat →
       stored_bytes (localforage s) + byteLength modelData
       - Zsum (take i (sizes (map_to_list (localforage s))).*2) > cacheSize s) ∧
    (stored_bytes (localforage s) + byteLength modelData ≤ cacheSize s →
       localforage s' = localforage s).
Proof.
  destruct (validateCache_spec W modelData s)
    as (j & Hj & Hn & Hst & _ & _ & _ & Hbefore & _).
  exists j, (validateCache W modelData s).2.
  split; [by destruct (validateCache W modelData s) as [r s']; cbn in *; subst|].
  split; [done|]. split; [done|]. split; [done|].
  intros Hfit. destruct j as [|j]; [by rewrite Hst|].
  specialize (Hbefore 0%nat ltac:(lia)).
  rewrite take_0 in Hbefore. change (Zsum []) with 0 in Hbefore. lia.
Qed.

(** ** Errors while the store is read *)

(** A throw in lines 85-92 is caught: two lines on the console, nothing
    removed. *)
Lemma validateCache_read_error W modelData s err :
  (read_sizes W s).1 = Throw err →
  (validateCache W modelData s).1 = Normal () ∧
  localforage (validateCache W modelData s).2 = localforage s ∧
  clock (validateCache W modelData s).2 = clock (read_sizes W s).2 ∧
  console (validateCache W modelData s).2
    = console s ++ [ErrorMsg "unable to validate the cache"; ErrorObj err].
Proof.
  intros Hread.
  destruct (read_sizes_spec W s) as (Hst & (_ & _ & Hl & _) & _).
  unfold validateCache, try_catch, bind.
  destruct (read_sizes W s) as [[measured|e] s1]; cbn [fst snd] in *; [done|].
  injection Hread as ->. cbn. rewrite Hl, <- app_assoc. done.
Qed.

(** C9.  When the enumeration of the store (the [keys] call or one of the
    [getItem] calls of lines 85-92) throws, [validateCache] logs the error and
    returns with every stored entry still in place; [fetchData] then goes on
    to [setItem], so the artifact is inserted next to everything that was
    stored, without any eviction. *)
Theorem read_error_skips_eviction_insert_proceeds
    W modelPath s modelData s1 err :
  download W modelPath s = (Normal modelData, s1) →
  byteLength modelData ≤ cacheSize s →
  (read_sizes W s1).1 = Throw err →
  rejects W (clock (read_sizes W s1).2) = false →
  (validateCache W modelData s1).1 = Normal () ∧
  localforage (validateCache W modelData s1).2 = localforage s ∧
  (fetchData W modelPath s).1 = Normal modelData ∧
  localforage (fetchData W modelPath s).2
    = <[modelPath := modelData]> (localforage s) ∧
  console (fetchData W modelPath s).2
    = console s ++ [ErrorMsg "unable to validate the cache"; ErrorObj err].
Proof.
  intros Hdl Hfit Hread Hset.
  destruct (download_frame W modelPath s) as (Hst & _ & Hc & Hl & _).
  destruct (validateCache_read_error W modelData s1 err Hread)
    as (Hn & Hkeep & Hclock & Hlog).
  rewrite fetchData_unfold. rewrite Hdl in *. cbn [snd] in *.
  rewrite store_or_warn_fits by lia.
  rewrite setItem_ok by (by rewrite Hclock). cbn [fst snd].
  change (localforage (with_store ?f (tick ?s0))) with (f (localforage s0)).
  change (console (with_store ?f (tick ?s0))) with (console s0).
  rewrite Hkeep, Hlog, Hst, Hl. done.
Qed.

(** An instance where the budget ends up exceeded: 8 bytes stored, budget 10,
    the [keys] call rejects, 4 more bytes are inserted. *)
Lemma read_error_skips_eviction_insert_proceeds_witness :
  let W := sample_world (λ t, Nat.eqb t 1) in
  let s := sample_state 10 {[ "a"%string := blob 8 ]} None in
  localforage (fetchData W "abcd" s).2
    = <[ "abcd"%string := blob 4 ]> (localforage s) ∧
  stored_bytes (localforage (fetchData W "abcd" s).2) > cacheSize s.
Proof.
  intros W s.
  destruct (read_error_skips_eviction_insert_proceeds W "abcd" s (blob 4)
              (tick (with_request "abcd" s)) StoreError)
    as (_ & _ & _ & Hst & _).
  - reflexivity.
  - vm_compute. discriminate.
  - reflexivity.
  - reflexivity.
  - split; [exact Hst|]. rewrite Hst. reflexivity.
Defined.

(** ** [init] *)

Section Init.

Context (W : World).

Lemma fetchData_console modelPath s :
  ∃ lines, console (fetchData W modelPath s).2 = console s ++ lines.
Proof.
  rewrite fetchData_unfold.
  destruct (download_frame W modelPath s) as (_ & _ & Hc & Hl & _).
  destruct (download W modelPath s) as [[b|e] s1]; cbn [snd] in *.
  - destruct (Z_le_gt_dec (byteLength b) (cacheSize s1)).
    + rewrite store_or_warn_fits by done. cbn [snd].
      destruct (setItem_frame W modelPath b (validateCache W b s1).2)
        as (_ & _ & -> & _).
      destruct (validateCache_spec W b s1)
        as (j & _ & _ & _ & _ & _ & _ & _ & [Hlog|[err Hlog]] & _);
        rewrite Hlog, Hl.
      * exists []. by rewrite app_nil_r.
      * by eexists.
    + rewrite store_or_warn_oversized by done. cbn. rewrite Hl. by eexists.
  - exists []. by rewrite app_nil_r.
Qed.

(** The cache lookup of [init], case by case. *)
Lemma resolve_unfold modelPath s :
  resolve W modelPath s =
    if rejects W (clock s) then
      fetchData W modelPath (logged StoreError (tick s))
    else
      match localforage s !! modelPath with
      | Some cachedData => (Normal cachedData, tick s)
      | None =>
          match fetchData W modelPath (tick s) with
          | (Normal modelData, s1) => (Normal modelData, s1)
          | (Throw err, s1) => fetchData W modelPath (logged err s1)
          end
      end.
Proof.
  unfold resolve, try_catch, bind at 1, getItem, store_call.
  destruct (rejects W (clock s)); [done|].
  change (localforage (tick s)) with (localforage s).
  destruct (localforage s !! modelPath); [done|].
  by destruct (fetchData W modelPath (tick s)) as [[b|e] s1].
Qed.

Lemma resolve_frame modelPath s :
  ortSession (resolve W modelPath s).2 = ortSession s ∧
  cacheSize (resolve W modelPath s).2 = cacheSize s.
Proof.
  rewrite resolve_unfold. destruct (rejects W (clock s)).
  - by destruct (fetchData_frame W modelPath (logged StoreError (tick s)))
      as (-> & -> & _).
  - destruct (localforage s !! modelPath); [done|].
    destruct (fetchData_frame W modelPath (tick s)) as (Ho & Hc & _).
    destruct (fetchData W modelPath (tick s)) as [[b|e] s1]; [done|].
    cbn [snd] in *.
    by destruct (fetchData_frame W modelPath (logged e s1)) as (-> & -> & _).
Qed.

Lemma init_unfold modelPath s :
  init W modelPath s =
    match resolve W modelPath s with
    | (Normal modelData, s1) =>
        match ort_create W (clock s1) modelData with
        | Some h => (Normal (), with_ortSession h (tick s1))
        | None => (Throw CreateError, tick s1)
        end
    | (Throw err, s1) => (Throw err, s1)
    end.
Proof.
  unfold init, bind, InferenceSession_create.
  destruct (resolve W modelPath s) as [[b|e] s1]; [|done].
  by destruct (ort_create W (clock s1) b).
Qed.

(** Line 65 is the only write to [this.ortSession], and it is the last
    statement of [init]. *)
Lemma init_failure_keeps_handle modelPath s :
  (init W modelPath s).1 ≠ Normal () →
  ortSession (init W modelPath s).2 = ortSession s ∧
  cacheSize (init W modelPath s).2 = cacheSize s.
Proof.
  rewrite init_unfold.
  destruct (resolve_frame modelPath s) as (Ho & Hc).
  destruct (resolve W modelPath s) as [[b|e] s1]; cbn [snd] in *; [|done].
  by destruct (ort_create W (clock s1) b).
Qed.

Lemma init_success_sets_handle modelPath s :
  (init W modelPath s).1 = Normal () →
  ∃ h, ortSession (init W modelPath s).2 = Some h.
Proof.
  rewrite init_unfold.
  destruct (resolve W modelPath s) as [[b|e] s1]; [|done].
  destruct (ort_create W (clock s1) b) as [h|]; [|done]. by exists h.
Qed.

Lemma resolve_hit modelPath s cachedData :
  localforage s !! modelPath = Some cachedData →
  rejects W (clock s) = false →
  resolve W modelPath s = (Normal cachedData, tick s).
Proof. intros Hin Hok. rewrite resolve_unfold. by rewrite Hok, Hin. Qed.

(** On a store that never rejects, a lookup that returned an artifact
    within the budget leaves that artifact stored under its path. *)
Lemma resolve_stores_artifact modelPath s modelData :
  reliable W →
  (resolve W modelPath s).1 = Normal modelData →
  byteLength modelData ≤ cacheSize s →
  localforage (resolve W modelPath s).2 !! modelPath = Some modelData.
Proof.
  intros Hrel. rewrite resolve_unfold, Hrel.
  destruct (localforage s !! modelPath) as [d|] eqn:Hin.
  { cbn. intros [= ->] _. done. }
  assert (∀ s0 b, (fetchData W modelPath s0).1 = Normal b →
            byteLength b ≤ cacheSize s0 →
            localforage (fetchData W modelPath s0).2 !! modelPath = Some b)
    as Hfetch.
  { intros s0 b. rewrite fetchData_unfold.
    destruct (download_frame W modelPath s0) as (_ & _ & Hc & _).
    destruct (download W modelPath s0) as [[b'|e] s1]; cbn [fst snd] in *;
      [|done].
    rewrite store_or_warn_normal. intros [= ->] Hfit. rewrite <- Hc in Hfit.
    by apply store_or_warn_within_budget. }
  pose proof (Hfetch (tick s)) as H1.
  destruct (fetchData_frame W modelPath (tick s)) as (_ & Hc1 & _).
  destruct (fetchData W modelPath (tick s)) as [[b|e] s1]; cbn [fst snd] in *.
  - intros [= ->] Hfit. by apply H1.
  - intros Hres Hfit. apply Hfetch; [done|].
    change (cacheSize (logged e s1)) with (cacheSize s1). by rewrite Hc1.
Qed.

End Init.

(** ** Cache hits and store errors during the lookup *)

(** C2.  Cache hit short-circuits fetch: if after one lookup of a path the
    store holds the artifact under that path, and the next [getItem] does not
    reject, then a second lookup of the same path returns the stored bytes,
    hands no path to [fetch] and leaves the store as it is; the same holds
    for the whole of [init]. *)
Theorem cache_hit_short_circuits_fetch W modelPath s r s1 stored :
  resolve W modelPath s = (r, s1) →
  localforage s1 !! modelPath = Some stored →
  rejects W (clock s1) = false →
  (resolve W modelPath s1).1 = Normal stored ∧
  requests (resolve W modelPath s1).2 = requests s1 ∧
  localforage (resolve W modelPath s1).2 = localforage s1 ∧
  requests (init W modelPath s1).2 = requests s1.
Proof.
  intros _ Hin Hok.
  rewrite init_unfold, (resolve_hit W modelPath s1 stored Hin Hok).
  cbn [fst snd]. repeat split.
  by destruct (ort_create W (clock (tick s1)) stored).
Qed.

Lemma cache_hit_short_circuits_fetch_witness :
  let W := sample_world (λ _, false) in
  let s := sample_state 10 ∅ None in
  let s1 := (resolve W "abcd" s).2 in
  requests s1 = ["abcd"%string] ∧
  (resolve W "abcd" s1).1 = Normal (blob 4) ∧
  requests (resolve W "abcd" s1).2 = ["abcd"%string].
Proof.
  intros W s s1.
  destruct (cache_hit_short_circuits_fetch W "abcd" s (Normal (blob 4)) s1
              (blob 4)) as (Hret & Hreq & _).
  - reflexivity.
  - reflexivity.
  - reflexivity.
  - split; [reflexivity|]. split; [exact Hret|]. rewrite Hreq. reflexivity.
Defined.

Lemma download_never_store_error W modelPath s :
  (download W modelPath s).1 ≠ Throw StoreError.
Proof.
  rewrite download_result.
  destruct (responds W (clock s) modelPath) as [body|]; [|done].
  destruct (decide (extension modelPath = Some "gz"%string)); [|done].
  by destruct (pako_inflate W body).
Qed.

(** C5.  Corrupt cache recovery: when the [getItem] of the lookup rejects, the
    lookup logs the two error lines and calls [fetchData]; its outcome is
    the outcome of the download, so it is never the store's error, and when
    the download succeeds the lookup returns the downloaded bytes. *)
Theorem store_get_error_falls_through W modelPath s :
  rejects W (clock s) = true →
  resolve W modelPath s
    = fetchData W modelPath (logged StoreError (tick s)) ∧
  (resolve W modelPath s).1
    = (download W modelPath (logged StoreError (tick s))).1 ∧
  (resolve W modelPath s).1 ≠ Throw StoreError ∧
  requests (resolve W modelPath s).2 = requests s ++ [modelPath] ∧
  ∃ lines, console (resolve W modelPath s).2
    = console s ++ [ErrorMsg "unable to load the data from cache";
                    ErrorObj StoreError] ++ lines.
Proof.
  intros Hrej. rewrite resolve_unfold, Hrej.
  split; [done|]. rewrite fetchData_outcome. split; [done|].
  split; [apply download_never_store_error|].
  destruct (fetchData_frame W modelPath (logged StoreError (tick s)))
    as (_ & _ & ->).
  split; [done|].
  destruct (fetchData_console W modelPath (logged StoreError (tick s)))
    as [lines ->].
  exists lines. cbn. by rewrite <- !app_assoc.
Qed.

Lemma store_get_error_falls_through_witness :
  let W := sample_world (λ t, Nat.eqb t 0) in
  let s := sample_state 10 {[ "abcd"%string := blob 1 ]} None in
  (resolve W "abcd" s).1 = Normal (blob 4) ∧
  requests (resolve W "abcd" s).2 = ["abcd"%string].
Proof.
  intros W s.
  destruct (store_get_error_falls_through W "abcd" s) as (_ & Hret & _ & Hreq & _).
  - reflexivity.
  - split; [rewrite Hret; reflexivity|exact Hreq].
Defined.

(** ** The life cycle of the handle *)

(** C7, as stated, fails on a session that is Ready: with no network, [init]
    on a session that holds a handle throws the network error and the
    session still holds that handle afterwards, so a failing [init] does not
    always leave the session without a handle. *)
Lemma failed_init_on_ready_session_keeps_handle :
  (init offline_world "abcd" (sample_state 10 ∅ (Some sample_handle))).1
    = Throw NetworkError ∧
  ortSession
    (init offline_world "abcd" (sample_state 10 ∅ (Some sample_handle))).2
    = Some sample_handle ∧
  ¬ (∀ W modelPath s,
       (init W modelPath s).1 ≠ Normal () →
       ortSession (init W modelPath s).2 = None).
Proof.
  split; [reflexivity|]. split; [reflexivity|].
  intros H.
  specialize (H offline_world "abcd"%string
                (sample_state 10 ∅ (Some sample_handle))).
  discriminate H. discriminate.
Qed.

(** C7, amended.  A failing [init] leaves the handle (and the budget) of the
    session as they were: a session without a handle is still without one,
    a Ready session keeps its previous handle.  [init] can be called again
    on the state it left, and a call that then succeeds leaves a handle. *)
Theorem failed_init_leaves_session_unchanged W modelPath s :
  (init W modelPath s).1 ≠ Normal () →
  ortSession (init W modelPath s).2 = ortSession s ∧
  cacheSize (init W modelPath s).2 = cacheSize s ∧
  (ortSession s = None → ortSession (init W modelPath s).2 = None) ∧
  ∀ W' modelPath',
    (init W' modelPath' (init W modelPath s).2).1 = Normal () →
    ∃ h, ortSession (init W' modelPath' (init W modelPath s).2).2 = Some h.
Proof.
  intros Hfail.
  destruct (init_failure_keeps_handle W modelPath s Hfail) as [Ho Hc].
  split; [done|]. split; [done|]. split; [congruence|].
  intros W' modelPath'. apply init_success_sets_handle.
Qed.

Lemma failed_init_leaves_session_unchanged_witness :
  let s := sample_state 10 ∅ None in
  let s1 := (init offline_world "abcd" s).2 in
  ortSession s1 = None ∧
  ∃ h, ortSession (init (sample_world (λ _, false)) "abcd" s1).2 = Some h.
Proof.
  intros s s1.
  destruct (failed_init_leaves_session_unchanged offline_world "abcd" s)
    as (_ & _ & Hnone & Hretry).
  - discriminate.
  - split; [by apply Hnone|]. apply Hretry. reflexivity.
Defined.

(** C4.  Not-initialized guard: on a session whose handle is absent (as it is
    after the constructor, and still is after any [init] that failed on such
    a session) [run], [inputNames] and [outputNames] throw the
    not-initialized error and change nothing; after an [init] that returned
    normally there is a handle, and the three calls give what the handle
    gives, which is never the not-initialized error. *)
Theorem not_initialized_guard :
  (∀ params s, ortSession (constructor params s) = None) ∧
  (∀ W modelPath s,
     ortSession s = None → (init W modelPath s).1 ≠ Normal () →
     ortSession (init W modelPath s).2 = None) ∧
  (∀ s input,
     ortSession s = None →
     run input s = (Throw NotInitialized, s) ∧
     inputNames s = (Throw NotInitialized, s) ∧
     outputNames s = (Throw NotInitialized, s)) ∧
  (∀ W modelPath s input,
     (init W modelPath s).1 = Normal () →
     ∃ h, ortSession (init W modelPath s).2 = Some h ∧
       run input (init W modelPath s).2
         = (match ort_run h input with
            | Some output => Normal output
            | None => Throw RunError
            end, (init W modelPath s).2) ∧
       (run input (init W modelPath s).2).1 ≠ Throw NotInitialized ∧
       inputNames (init W modelPath s).2
         = (Normal (ort_inputNames h), (init W modelPath s).2) ∧
       outputNames (init W modelPath s).2
         = (Normal (ort_outputNames h), (init W modelPath s).2)).
Proof.
  split; [done|]. split.
  { intros W modelPath s Hnone Hfail.
    destruct (init_failure_keeps_handle W modelPath s Hfail) as [-> _]. done. }
  split.
  { intros s input Hnone.
    unfold run, inputNames, outputNames, bind, this_ortSession.
    by rewrite Hnone. }
  intros W modelPath s input Hok.
  destruct (init_success_sets_handle W modelPath s Hok) as [h Hh].
  exists h. split; [done|].
  unfold run, inputNames, outputNames, bind, this_ortSession. rewrite Hh.
  destruct (ort_run h input); done.
Qed.

Lemma not_initialized_guard_witness :
  let fresh := constructor SessionParams (sample_state 0 ∅ None) in
  let ready := (init (sample_world (λ _, false)) "abcd" fresh).2 in
  inputNames fresh = (Throw NotInitialized, fresh) ∧
  inputNames ready = (Normal ["input"%string], ready).
Proof.
  intros fresh ready.
  destruct not_initialized_guard as (Hnew & _ & Hguard & Hready).
  destruct (Hguard fresh ∅ (Hnew SessionParams (sample_state 0 ∅ None)))
    as (_ & Hin & _).
  destruct (Hready (sample_world (λ _, false)) "abcd"%string fresh ∅)
    as (h & Hh & _ & _ & Hnames & _); [reflexivity|].
  split; [exact Hin|].
  fold ready in Hh, Hnames. rewrite Hnames.
  assert (ortSession ready = Some sample_handle) as Hs by reflexivity.
  rewrite Hs in Hh. injection Hh as <-. reflexivity.
Defined.

(** ** The extension test of [fetchData] *)

Lemma split_nonempty sep s : split sep s ≠ [].
Proof.
  destruct s as [|c r]; [done|]. cbn.
  destruct (Ascii.eqb c sep); [done|]. by destruct (split sep r).
Qed.

(** A string that splits into one piece is that piece. *)
Lemma split_singleton sep s piece : split sep s = [piece] → s = piece.
Proof.
  revert piece. induction s as [|c r IH]; intros piece; cbn.
  - by intros [= <-].
  - destruct (Ascii.eqb c sep).
    + intros [= _ Hr]. by destruct (split_nonempty sep r).
    + destruct (split sep r) as [|p ps] eqn:Hr;
        [by destruct (split_nonempty sep r)|].
      intros [= <- ->]. by rewrite (IH p).
Qed.

(** Splitting at a separator splits both sides. *)
Lemma split_app_sep sep (a b : string) :
  split sep (a +:+ String sep b) = split sep a ++ split sep b.
Proof.
  induction a as [|c a IH].
  - change (split sep (String sep b) = [""%string] ++ split sep b).
    cbn. by rewrite Ascii.eqb_refl.
  - change (split sep (String c (a +:+ String sep b))
            = split sep (String c a) ++ split sep b).
    cbn. rewrite IH. destruct (Ascii.eqb c sep); [done|].
    destruct (split sep a) as [|p ps] eqn:Ha; [|done].
    by destruct (split_nonempty sep a).
Qed.

(** What [s.split(sep).pop()] is: the whole of a string without separator,
    and otherwise what follows the last separator. *)
Lemma pop_split_inv sep s e :
  pop (split sep s) = Some e →
  (split sep s = [e] ∧ s = e) ∨ ∃ stem, s = (stem +:+ String sep e)%string.
Proof.
  unfold pop. revert e. induction s as [|c r IH]; intros e; cbn.
  - intros [= <-]. by left.
  - destruct (Ascii.eqb_spec c sep) as [->|Hne].
    + rewrite last_cons. pose proof (split_nonempty sep r) as Hr.
      destruct (last (split sep r)) as [e'|] eqn:Hlast;
        [|by apply last_None in Hlast].
      intros [= ->]. right.
      destruct (IH e eq_refl) as [[_ ->]|[stem ->]].
      * by exists ""%string.
      * by exists (String sep stem).
    + destruct (split sep r) as [|p ps] eqn:Hr;
        [by destruct (split_nonempty sep r)|].
      destruct ps as [|p' ps'].
      * cbn. intros [= <-]. left. split; [done|].
        by rewrite (split_singleton sep r p Hr).
      * rewrite last_cons_cons. rewrite <- (last_cons_cons p). intros Hlast.
        destruct (IH e Hlast) as [[[=] _]|[stem ->]].
        right. by exists (String c stem).
Qed.

(** The extension is [gz] for the paths that end in [.gz], and for the path
    that is [gz] and nothing else. *)
Lemma extension_gz_iff modelPath :
  extension modelPath = Some "gz"%string ↔
  modelPath = "gz"%string ∨ ends_with ".gz" modelPath.
Proof.
  unfold extension, ends_with. split.
  - intros H. apply pop_split_inv in H as [[_ ->]|[stem ->]]; [by left|].
    right. by exists stem.
  - intros [->|[stem ->]]; [done|].
    change ".gz"%string with (String "." "gz").
    rewrite split_app_sep. unfold pop. apply last_snoc.
Qed.

Lemma gz_has_no_gz_suffix : ¬ ends_with ".gz" "gz".
Proof.
  intros [stem H]. destruct stem as [|c [|d stem]]; try discriminate.
  change ("gz"%string = String c (String d (stem +:+ ".gz"))) in H.
  injection H as _ _ H. by destruct stem.
Qed.

(** X1.  Every path but the bare [gz]: decompressed exactly when it ends in
    [.gz]; a decompressor that throws makes [fetchData] throw the decode
    error; without the suffix the body comes back as it was downloaded. *)
Lemma download_by_suffix W modelPath s body :
  modelPath ≠ "gz"%string →
  responds W (clock s) modelPath = Some body →
  (ends_with ".gz" modelPath →
     (fetchData W modelPath s).1
       = match pako_inflate W body with
         | Some raw => Normal raw
         | None => Throw DecodeError
         end) ∧
  (¬ ends_with ".gz" modelPath → (fetchData W modelPath s).1 = Normal body).
Proof.
  intros Hne Hbody. rewrite fetchData_outcome, download_result, Hbody.
  pose proof (extension_gz_iff modelPath) as Hext.
  destruct (decide (extension modelPath = Some "gz"%string)) as [He|He].
  - split; [done|]. intros Hno. apply Hext in He as [->|Hs]; done.
  - split; [|done]. intros Hs. destruct He. apply Hext. by right.
Qed.

(** C8, at the path [gz]: it does not end in [.gz], and [fetchData] hands
    its body to the decompressor all the same (here a 2-byte body comes back
    as the 4 bytes the sample decompressor makes of it), while the path [ab]
    of the same world comes back as downloaded. *)
Theorem fetchData_decompresses_bare_gz :
  ¬ ends_with ".gz" "gz" ∧
  extension "gz" = Some "gz"%string ∧
  (download (sample_world (λ _, false)) "gz" (sample_state 10 ∅ None)).1
    = Normal (blob 4) ∧
  (fetchData (sample_world (λ _, false)) "gz" (sample_state 10 ∅ None)).1
    = Normal (blob 4) ∧
  (fetchData (sample_world (λ _, false)) "ab" (sample_state 10 ∅ None)).1
    = Normal (blob 2).
Proof.
  split; [apply gz_has_no_gz_suffix|]. repeat split.
Qed.

(** ** Further properties *)

(** The scenario of three inserts: budget 10, empty store, three artifacts of
    4 bytes each inserted in turn.  Two entries remain, the last artifact
    is one of them, and 8 bytes are stored. *)
Example three_inserts_scenario :
  let s := (fetch_all (sample_world (λ _, false))
              ["abcd"; "efgh"; "ijkl"]%string (sample_state 10 ∅ None)).2 in
  size (localforage s) = 2%nat ∧
  localforage s !! "ijkl"%string = Some (blob 4) ∧
  stored_bytes (localforage s) = 8 ∧
  console s = [].
Proof. vm_compute. repeat split. Qed.

Lemma download_by_suffix_witness :
  (fetchData (sample_world (λ _, false)) "m.gz" (sample_state 10 ∅ None)).1
    = Normal (blob 8) ∧
  (fetchData (sample_world (λ _, false)) "m.gzip" (sample_state 10 ∅ None)).1
    = Normal (blob 6).
Proof.
  split.
  - refine (proj1 (download_by_suffix (sample_world (λ _, false)) "m.gz"
                     (sample_state 10 ∅ None) (blob 4) _ _) _).
    + discriminate.
    + reflexivity.
    + by exists "m"%string.
  - refine (proj2 (download_by_suffix (sample_world (λ _, false)) "m.gzip"
                     (sample_state 10 ∅ None) (blob 6) _ _) _).
    + discriminate.
    + reflexivity.
    + intros [stem H].
      do 4 (destruct stem as [|? stem]; [discriminate H|]).
      cbv [String.append] in H. fold String.append in H.
      injection H as _ _ _ _ H.
      destruct stem as [|? [|? [|? stem]]];
        cbv [String.append] in H; discriminate H.
Defined.

(** ** Downloads that fail, and lookups that follow one another *)

Lemma fetchData_throw W modelPath s err :
  (fetchData W modelPath s).1 = Throw err →
  (download W modelPath s).1 = Throw err ∧
  (fetchData W modelPath s).2 = (download W modelPath s).2.
Proof.
  rewrite fetchData_unfold.
  destruct (download W modelPath s) as [[b|e] s1]; cbn [fst snd]; [|done].
  by rewrite store_or_warn_normal.
Qed.

(** X2.  Lookup round trip: on a store that never rejects, once a lookup has
    returned an artifact of at most [cacheSize] bytes, the next lookup of the
    same path returns the same bytes, from the store: no path is handed to
    [fetch] and the store stays as it is. *)
Theorem lookup_round_trip W modelPath s modelData :
  reliable W →
  (resolve W modelPath s).1 = Normal modelData →
  byteLength modelData ≤ cacheSize s →
  (resolve W modelPath (resolve W modelPath s).2).1 = Normal modelData ∧
  requests (resolve W modelPath (resolve W modelPath s).2).2
    = requests (resolve W modelPath s).2 ∧
  localforage (resolve W modelPath (resolve W modelPath s).2).2
    = localforage (resolve W modelPath s).2.
Proof.
  intros Hrel Hret Hfit.
  pose proof (resolve_stores_artifact W modelPath s modelData Hrel Hret Hfit)
    as Hin.
  by rewrite (resolve_hit W modelPath _ modelData Hin (Hrel _)).
Qed.

Lemma lookup_round_trip_witness :
  let W := sample_world (λ _, false) in
  let s1 := (resolve W "m.gz" (sample_state 10 ∅ None)).2 in
  (resolve W "m.gz" s1).1 = Normal (blob 8) ∧
  requests (resolve W "m.gz" s1).2 = ["m.gz"%string].
Proof.
  intros W s1.
  destruct (lookup_round_trip W "m.gz" (sample_state 10 ∅ None) (blob 8))
    as (Hret & Hreq & _).
  - intros t. reflexivity.
  - reflexivity.
  - vm_compute. discriminate.
  - split; [exact Hret|]. fold s1 in Hreq. rewrite Hreq. reflexivity.
Defined.

(** X3.  A download that fails on a cache miss is tried a second time: the
    first [fetchData] of [init] sits inside the [try], so when it throws, the
    [catch] logs its two lines and calls [fetchData] again, on a store that
    the failed attempt has not changed.  The lookup then ends as that second
    download ends, and the path has been handed to [fetch] twice. *)
Theorem failed_download_on_miss_is_retried W modelPath s err :
  rejects W (clock s) = false →
  localforage s !! modelPath = None →
  (fetchData W modelPath (tick s)).1 = Throw err →
  resolve W modelPath s
    = fetchData W modelPath (logged err (fetchData W modelPath (tick s)).2) ∧
  localforage (logged err (fetchData W modelPath (tick s)).2) = localforage s ∧
  (resolve W modelPath s).1
    = (download W modelPath (logged err (fetchData W modelPath (tick s)).2)).1 ∧
  requests (resolve W modelPath s).2 = requests s ++ [modelPath; modelPath] ∧
  ∃ lines, console (resolve W modelPath s).2
    = console s ++ [ErrorMsg "unable to load the data from cache";
                    ErrorObj err] ++ lines.
Proof.
  intros Hok Hmiss Hthrow.
  destruct (fetchData_throw W modelPath (tick s) err Hthrow) as [_ Hst].
  destruct (download_frame W modelPath (tick s)) as (Hkeep & _ & _ & Hl & _).
  destruct (fetchData_frame W modelPath (tick s)) as (_ & _ & Hq).
  rewrite resolve_unfold, Hok, Hmiss.
  destruct (fetchData W modelPath (tick s)) as [[b|e] s1] eqn:Hfirst;
    cbn [fst snd] in *; [done|].
  injection Hthrow as ->. subst s1.
  split; [done|]. split; [exact Hkeep|].
  rewrite fetchData_outcome. split; [done|].
  set (s2 := logged err (download W modelPath (tick s)).2).
  destruct (fetchData_frame W modelPath s2) as (_ & _ & ->).
  destruct (fetchData_console W modelPath s2) as [lines ->].
  split.
  - unfold s2. change (requests (logged err ?s0)) with (requests s0).
    rewrite Hq. change (requests (tick s)) with (requests s).
    by rewrite <- app_assoc.
  - exists lines. unfold s2, logged. cbn. rewrite Hl. cbn.
    by rewrite <- !app_assoc.
Qed.

Lemma failed_download_on_miss_is_retried_witness :
  let W := flaky_network_world (λ t, Nat.eqb t 1) in
  let s := sample_state 10 ∅ None in
  (resolve W "abcd" s).1 = Normal (blob 4) ∧
  requests (resolve W "abcd" s).2 = ["abcd"; "abcd"]%string.
Proof.
  intros W s.
  destruct (failed_download_on_miss_is_retried W "abcd" s NetworkError)
    as (_ & _ & Hret & Hreq & _).
  - reflexivity.
  - reflexivity.
  - reflexivity.
  - split; [rewrite Hret; reflexivity|exact Hreq].
Defined.



(** X5.  A model that the runtime rejects stays cached: on a store that never
    rejects, when the lookup returned an artifact within the budget and
    [InferenceSession.create] rejects it, [init] throws that rejection with
    the artifact stored under its path, and the next [init] of the path
    takes it from the store without handing anything to [fetch]. *)
Theorem rejected_model_stays_cached W modelPath s modelData :
  reliable W →
  (resolve W modelPath s).1 = Normal modelData →
  byteLength modelData ≤ cacheSize s →
  ort_create W (clock (resolve W modelPath s).2) modelData = None →
  (init W modelPath s).1 = Throw CreateError ∧
  localforage (init W modelPath s).2 !! modelPath = Some modelData ∧
  requests (init W modelPath (init W modelPath s).2).2
    = requests (init W modelPath s).2.
Proof.
  intros Hrel Hret Hfit Hcreate.
  pose proof (resolve_stores_artifact W modelPath s modelData Hrel Hret Hfit)
    as Hin.
  rewrite (init_unfold W modelPath s).
  destruct (resolve W modelPath s) as [[b|e] s1]; cbn [fst snd] in *; [|done].
  injection Hret as ->. rewrite Hcreate. cbn [fst snd].
  split; [done|]. split; [exact Hin|].
  rewrite init_unfold.
  rewrite (resolve_hit W modelPath (tick s1) modelData Hin (Hrel _)).
  by destruct (ort_create W (clock (tick (tick s1))) modelData).
Qed.

Lemma rejected_model_stays_cached_witness :
  let s := sample_state 10 ∅ None in
  let s1 := (init rejecting_runtime_world "abcd" s).2 in
  (init rejecting_runtime_world "abcd" s).1 = Throw CreateError ∧
  localforage s1 !! "abcd"%string = Some (blob 4) ∧
  requests (init rejecting_runtime_world "abcd" s1).2 = ["abcd"%string].
Proof.
  intros s s1.
  destruct (rejected_model_stays_cached rejecting_runtime_world "abcd" s (blob 4))
    as (Hthrow & Hin & Hreq).
  - intros t. reflexivity.
  - reflexivity.
  - vm_compute. discriminate.
  - reflexivity.
  - split; [exact Hthrow|]. split; [exact Hin|].
    fold s1 in Hreq. rewrite Hreq. reflexivity.
Defined.

(** ** Clearing the store *)

(** X6.  [clearCache] empties the store, and a lookup after it always goes to
    the network: whatever was cached before, and whatever the store calls of
    the lookup do, the path is handed to [fetch] at least once. *)
Theorem clearCache_forces_a_fetch W s modelPath :
  rejects W (clock s) = false →
  (clearCache W s).1 = Normal () ∧
  localforage (clearCache W s).2 = ∅ ∧
  stored_bytes (localforage (clearCache W s).2) = 0 ∧
  ∃ more, requests (resolve W modelPath (clearCache W s).2).2
    = requests s ++ modelPath :: more.
Proof.
  intros Hok. unfold clearCache, store_call. rewrite Hok. cbn [fst snd].
  set (s1 := with_store (λ _, ∅) (tick s)).
  split; [done|]. split; [done|]. split; [done|].
  rewrite resolve_unfold.
  destruct (rejects W (clock s1)).
  - destruct (fetchData_frame W modelPath (logged StoreError (tick s1)))
      as (_ & _ & ->). by exists [].
  - change (localforage s1) with (∅ : gmap string ArrayBuffer).
    rewrite lookup_empty.
    destruct (fetchData_frame W modelPath (tick s1)) as (_ & _ & Hq).
    destruct (fetchData W modelPath (tick s1)) as [[b|e] s2]; cbn [snd] in *.
    + exists []. exact Hq.
    + destruct (fetchData_frame W modelPath (logged e s2)) as (_ & _ & ->).
      exists [modelPath]. change (requests (logged e s2)) with (requests s2).
      rewrite Hq. by rewrite <- app_assoc.
Qed.

Lemma clearCache_forces_a_fetch_witness :
  let W := sample_world (λ _, false) in
  let s := sample_state 10 {[ "abcd"%string := blob 4 ]} None in
  localforage (clearCache W s).2 = ∅ ∧
  ∃ more, requests (resolve W "abcd" (clearCache W s).2).2
    = "abcd"%string :: more.
Proof.
  intros W s.
  destruct (clearCache_forces_a_fetch W s "abcd") as (_ & Hempty & _ & Hreq).
  - reflexivity.
  - split; [exact Hempty|exact Hreq].
Defined.

(** ** What a call leaves alone *)

Lemma validateCache_subset W modelData s k v :
  localforage (validateCache W modelData s).2 !! k = Some v →
  localforage s !! k = Some v.
Proof.
  destruct (validateCache_spec W modelData s) as (j & _ & _ & -> & _).
  unfold remove_all. rewrite lookup_foldr_delete_Some. tauto.
Qed.

Lemma fetchData_other_entries W modelPath s k v :
  k ≠ modelPath →
  localforage (fetchData W modelPath s).2 !! k = Some v →
  localforage s !! k = Some v.
Proof.
  intros Hne. rewrite fetchData_unfold.
  destruct (download_frame W modelPath s) as (Hst & _).
  destruct (download W modelPath s) as [[b|e] s1]; cbn [snd] in *;
    [|by rewrite Hst].
  rewrite <- Hst.
  destruct (Z_le_gt_dec (byteLength b) (cacheSize s1)).
  - rewrite store_or_warn_fits by done. cbn [snd].
    unfold setItem, store_call.
    destruct (rejects W (clock (validateCache W b s1).2)); cbn [snd].
    + apply validateCache_subset.
    + change (localforage (with_store ?f (tick ?s0))) with (f (localforage s0)).
      rewrite lookup_insert_ne by done. apply validateCache_subset.
  - by rewrite store_or_warn_oversized.
Qed.

(** X7.  [init] for one path leaves the artifacts cached under other paths
    either as they were or evicted: whatever is stored under another key
    after the call was stored under that key, with the same bytes, before
    it. *)
Theorem init_keeps_other_entries W modelPath s k v :
  k ≠ modelPath →
  localforage (init W modelPath s).2 !! k = Some v →
  localforage s !! k = Some v.
Proof.
  intros Hne. rewrite init_unfold.
  assert (localforage (resolve W modelPath s).2 !! k = Some v →
          localforage s !! k = Some v) as Hres.
  { rewrite resolve_unfold. destruct (rejects W (clock s)).
    - intros H. by apply fetchData_other_entries in H.
    - destruct (localforage s !! modelPath); [done|].
      pose proof (fetchData_other_entries W modelPath (tick s) k v Hne) as H1.
      destruct (fetchData W modelPath (tick s)) as [[b|e] s1]; cbn [snd] in *;
        [done|].
      intros H. apply fetchData_other_entries in H; [|done]. by apply H1. }
  destruct (resolve W modelPath s) as [[b|e] s1]; cbn [snd] in *; [|done].
  by destruct (ort_create W (clock s1) b).
Qed.

Lemma init_keeps_other_entries_witness :
  let s := sample_state 10 {[ "a"%string := blob 2 ]} None in
  localforage (init (sample_world (λ _, false)) "abcd" s).2 !! "a"%string
    = Some (blob 2) ∧
  localforage s !! "a"%string = Some (blob 2).
Proof.
  intros s.
  assert (localforage (init (sample_world (λ _, false)) "abcd" s).2
            !! "a"%string = Some (blob 2)) as H by reflexivity.
  split; [exact H|].
  apply (init_keeps_other_entries (sample_world (λ _, false)) "abcd" s "a"
           (blob 2)); [discriminate|exact H].
Defined.

(** ** How much is evicted *)

(** X8.  On a store that never rejects, for an artifact that fits the budget
    by itself, [validateCache] removes the shortest prefix of the key
    enumeration that makes room: afterwards the stored bytes plus the
    artifact are within [cacheSize], with any shorter prefix removed they
    would not be, and nothing is logged. *)
Theorem eviction_makes_just_enough_room W modelData s :
  reliable W →
  byteLength modelData ≤ cacheSize s →
  ∃ j,
    localforage (validateCache W modelData s).2
      = remove_all (take j (map_to_list (localforage s)).*1) (localforage s) ∧
    stored_bytes (localforage (validateCache W modelData s).2)
      + byteLength modelData ≤ cacheSize s ∧
    (∀ i, (i < j)%nat →
       stored_bytes
         (remove_all (take i (map_to_list (localforage s)).*1) (localforage s))
       + byteLength modelData > cacheSize s) ∧
    console (validateCache W modelData s).2 = console s.
Proof.
  intros Hrel Hfit.
  destruct (validateCache_spec W modelData s)
    as (j & _ & _ & Hst & _ & _ & _ & Hbefore & _ & Hend).
  destruct (Hend Hrel Hfit) as [Hlog Hle].
  exists j. split; [done|]. split.
  { rewrite Hst, stored_bytes_remove_all. lia. }
  split; [|done].
  intros i Hi. rewrite stored_bytes_remove_all.
  specialize (Hbefore i Hi). lia.
Qed.

Lemma eviction_makes_just_enough_room_witness :
  let W := sample_world (λ _, false) in
  let s := sample_state 10 {[ "a"%string := blob 4; "b"%string := blob 4 ]} None in
  stored_bytes (localforage (validateCache W (blob 4) s).2) + 4 ≤ 10 ∧
  size (localforage (validateCache W (blob 4) s).2) = 1%nat.
Proof.
  intros W s.
  destruct (eviction_makes_just_enough_room W (blob 4) s) as (j & _ & Hle & _).
  - intros t. reflexivity.
  - vm_compute. discriminate.
  - split; [exact Hle|reflexivity].
Defined.

(** ** [validateCache] called with an artifact that cannot fit *)

Lemma evict_loop_reliable_error W (entries : JsMap) :
  NoDup entries.*1 → reliable W →
  ∀ newCacheSize s,
    (evict_loop W entries newCacheSize s).1 = Normal () ∨
    (evict_loop W entries newCacheSize s).1 = Throw TypeError.
Proof.
  intros Hnd Hrel.
  induction entries as [|[key size] rest IH]; intros newCacheSize s;
    (destruct (newCacheSize >? cacheSize s) eqn:Hgt;
      [|rewrite evict_loop_done by done; by left]).
  - rewrite evict_loop_empty by done. by right.
  - rewrite evict_loop_step by done.
    rewrite fmap_cons, NoDup_cons in Hnd. destruct Hnd as [Hfresh Hnd].
    rewrite Map_delete_head by done. unfold bind.
    rewrite removeItem_ok by apply Hrel. by apply IH.
Qed.

Lemma remove_all_every (m : gmap string ArrayBuffer) :
  remove_all (map_to_list m).*1 m = ∅.
Proof.
  apply map_eq. intros k. rewrite lookup_empty.
  apply eq_None_not_Some. intros [v Hv].
  unfold remove_all in Hv. apply lookup_foldr_delete_Some in Hv as [Hnot Hin].
  apply Hnot. apply list_elem_of_fmap. exists (k, v).
  split; [done|]. by apply elem_of_map_to_list.
Qed.

Lemma Zsum_take_sizes j (l : list (string * ArrayBuffer)) :
  Zsum (take j (sizes l).*2) ≤ Zsum (sizes l).*2.
Proof.
  pose proof (Zsum_take_drop j (sizes l).*2) as H.
  pose proof (sizes_nonneg (drop j l)) as Hd.
  unfold sizes in *. rewrite !fmap_drop in Hd. lia.
Qed.

(** X9.  [validateCache] called with an artifact larger than [cacheSize] (a
    call that [fetchData] never makes, its guard comes first) on a store that
    never rejects: the loop evicts every entry, then reads the first entry
    of an empty [Map] and throws; the [catch] logs that error, and the call
    returns normally with the store empty. *)
Theorem oversized_validateCache_empties_store W modelData s :
  reliable W →
  byteLength modelData > cacheSize s →
  (validateCache W modelData s).1 = Normal () ∧
  localforage (validateCache W modelData s).2 = ∅ ∧
  console (validateCache W modelData s).2
    = console s ++ [ErrorMsg "unable to validate the cache"; ErrorObj TypeError].
Proof.
  intros Hrel Hbig.
  destruct (read_sizes_spec W s) as (Hst & (_ & Hc & Hl & _) & _ & Hread).
  specialize (Hread Hrel).
  unfold validateCache, try_catch, bind.
  destruct (read_sizes W s) as [[measured|err] s1]; cbn [fst snd] in *; [|done].
  injection Hread as ->. cbn [fst snd].
  set (entries := sizes (map_to_list (localforage s))).
  set (projected := stored_bytes (localforage s) + byteLength modelData).
  assert (NoDup entries.*1) as Hnd.
  { unfold entries. rewrite sizes_fst. apply NoDup_fst_map_to_list. }
  destruct (evict_loop_spec W entries Hnd projected s1)
    as (j & _ & Hev & (_ & _ & Hl' & _) & _ & Hafter & Hthrow).
  pose proof (evict_loop_reliable_error W entries Hnd Hrel projected s1) as Herr.
  pose proof (Zsum_take_sizes j (map_to_list (localforage s))) as Htake.
  fold entries in Htake.
  destruct (evict_loop W entries projected s1) as [[[]|err] s2];
    cbn [fst snd] in *.
  - specialize (Hafter eq_refl).
    unfold projected, stored_bytes in Hafter. fold entries in Hafter. lia.
  - destruct Herr as [|[= ->]]; [done|].
    destruct Hthrow as [-> _]; [done..|].
    cbn. split; [done|]. split.
    + rewrite Hev, Hst. unfold entries at 2. rewrite sizes_fst.
      rewrite take_ge.
      * apply remove_all_every.
      * unfold entries, sizes. by rewrite !length_fmap.
    + by rewrite Hl', Hl, <- app_assoc.
Qed.

Lemma oversized_validateCache_empties_store_witness :
  let W := sample_world (λ _, false) in
  let s := sample_state 3 {[ "a"%string := blob 2; "b"%string := blob 1 ]} None in
  localforage (validateCache W (blob 4) s).2 = ∅ ∧
  console (validateCache W (blob 4) s).2
    = [ErrorMsg "unable to validate the cache"; ErrorObj TypeError].
Proof.
  intros W s.
  destruct (oversized_validateCache_empties_store W (blob 4) s)
    as (_ & Hempty & Hlog).
  - intros t. reflexivity.
  - reflexivity.
  - split; [exact Hempty|exact Hlog].
Defined.

(** ** [createSession] *)



(** ** The extension of a path *)

Lemma split_pieces_without_sep sep s piece :
  piece ∈ split sep s → occurs sep piece = false.
Proof.
  revert piece. induction s as [|c r IH]; intros piece; cbn.
  - by intros ->%list_elem_of_singleton.
  - destruct (Ascii.eqb c sep) eqn:Hc.
    + intros [->|Hin]%elem_of_cons; [done|]. by apply IH.
    + destruct (split sep r) as [|p ps] eqn:Hr.
      * intros ->%list_elem_of_singleton. cbn. by rewrite Hc.
      * intros [->|Hin]%elem_of_cons.
        -- cbn. rewrite Hc. apply IH. left.
        -- apply IH. by right.
Qed.

(** X11.  [modelPath.split(".").pop()] is never [undefined]: it is the part
    of the path after its last dot, and the whole path when the path has no
    dot; in both cases it contains no dot itself. *)
Theorem extension_is_last_dotless_part modelPath :
  ∃ e, extension modelPath = Some e ∧
    occurs "." e = false ∧
    (modelPath = e ∨ ∃ stem, modelPath = (stem +:+ String "." e)%string).
Proof.
  unfold extension, pop.
  destruct (last (split "." modelPath)) as [e|] eqn:Hlast.
  - exists e. split; [done|]. split.
    + apply (split_pieces_without_sep "." modelPath).
      by apply last_Some_elem_of.
    + apply pop_split_inv in Hlast as [[_ ->]|Hstem]; [by left|by right].
  - apply last_None in Hlast. by destruct (split_nonempty "." modelPath).
Qed.

(** ** The first [init] of a path, and what caching cannot change *)

(** X12.  First use of a model: on a store that never rejects and does not
    hold the path, when the download yields an artifact within the budget and
    the runtime accepts it, [init] returns normally with the runtime's handle
    installed, the artifact stored under its path, the stored bytes within
    [cacheSize], and the path handed to [fetch] exactly once. *)
Theorem first_init_fetches_caches_and_readies W modelPath s modelData s1 h :
  reliable W →
  localforage s !! modelPath = None →
  download W modelPath (tick s) = (Normal modelData, s1) →
  byteLength modelData ≤ cacheSize s →
  ort_create W (clock (resolve W modelPath s).2) modelData = Some h →
  (init W modelPath s).1 = Normal () ∧
  ortSession (init W modelPath s).2 = Some h ∧
  localforage (init W modelPath s).2 !! modelPath = Some modelData ∧
  stored_bytes (localforage (init W modelPath s).2) ≤ cacheSize s ∧
  requests (init W modelPath s).2 = requests s ++ [modelPath].
Proof.
  intros Hrel Hmiss Hdl Hfit Hcreate.
  destruct (download_frame W modelPath (tick s)) as (_ & _ & Hc & _).
  destruct (fetchData_frame W modelPath (tick s)) as (_ & _ & Hq).
  assert (resolve W modelPath s
          = (Normal modelData, (store_or_warn W modelPath modelData s1).2))
    as Hres.
  { rewrite resolve_unfold, Hrel, Hmiss, fetchData_unfold, Hdl.
    pose proof (store_or_warn_normal W modelPath modelData s1) as Hn.
    destruct (store_or_warn W modelPath modelData s1) as [r s2];
      cbn [fst snd] in *. by subst r. }
  rewrite Hdl in Hc. cbn [snd] in Hc. change (cacheSize (tick s)) with (cacheSize s) in Hc.
  destruct (store_or_warn_within_budget W modelPath modelData s1 Hrel)
    as [Hsum Hin]; [lia|].
  rewrite fetchData_unfold, Hdl in Hq.
  rewrite init_unfold. rewrite Hres in *. cbn [fst snd] in *.
  rewrite Hcreate.
  set (s2 := (store_or_warn W modelPath modelData s1).2) in *.
  cbn. split; [done|]. split; [done|]. split; [exact Hin|].
  split; [lia|exact Hq].
Qed.

Lemma first_init_fetches_caches_and_readies_witness :
  let W := sample_world (λ _, false) in
  let s := sample_state 10 {[ "a"%string := blob 8 ]} None in
  (init W "abcd" s).1 = Normal () ∧
  localforage (init W "abcd" s).2 !! "abcd"%string = Some (blob 4) ∧
  stored_bytes (localforage (init W "abcd" s).2) ≤ 10 ∧
  requests (init W "abcd" s).2 = ["abcd"%string].
Proof.
  intros W s.
  destruct (first_init_fetches_caches_and_readies W "abcd" s (blob 4)
              (tick (with_request "abcd" (tick s))) sample_handle)
    as (Hok & _ & Hin & Hsum & Hreq).
  - intros t. reflexivity.
  - reflexivity.
  - reflexivity.
  - vm_compute. discriminate.
  - reflexivity.
  - split; [exact Hok|]. split; [exact Hin|]. split; [exact Hsum|exact Hreq].
Defined.

(** X13.  What is cached for a compressed path is the decompressed artifact,
    and the budget is checked against the decompressed size: for a path that
    ends in [.gz] whose body decompresses, [fetchData] returns the
    decompressed bytes; when those exceed [cacheSize] the store is left as
    it was, however small the body; when they fit, and the store does not
    reject, they are what is stored under the path. *)
Theorem compressed_artifact_cached_decompressed W modelPath s body raw :
  ends_with ".gz" modelPath →
  responds W (clock s) modelPath = Some body →
  pako_inflate W body = Some raw →
  (fetchData W modelPath s).1 = Normal raw ∧
  (byteLength raw > cacheSize s →
   localforage (fetchData W modelPath s).2 = localforage s) ∧
  (reliable W → byteLength raw ≤ cacheSize s →
   localforage (fetchData W modelPath s).2 !! modelPath = Some raw).
Proof.
  intros Hgz Hbody Hraw.
  assert (extension modelPath = Some "gz"%string) as Hext
    by (apply extension_gz_iff; by right).
  assert (download W modelPath s = (Normal raw, tick (with_request modelPath s)))
    as Hdl.
  { unfold download, bind, fetch, inflate. rewrite Hbody.
    rewrite decide_True by done. by rewrite Hraw. }
  rewrite fetchData_unfold, Hdl.
  split; [apply store_or_warn_normal|]. split.
  - intros Hbig. by rewrite store_or_warn_oversized.
  - intros Hrel Hfit. by apply store_or_warn_within_budget.
Qed.

Lemma compressed_artifact_cached_decompressed_witness :
  let W := sample_world (λ _, false) in
  localforage (fetchData W "m.gz" (sample_state 6 ∅ None)).2 = ∅ ∧
  localforage (fetchData W "m.gz" (sample_state 8 ∅ None)).2 !! "m.gz"%string
    = Some (blob 8).
Proof.
  intros W. split.
  - refine (proj1 (proj2 (compressed_artifact_cached_decompressed W "m.gz"
                            (sample_state 6 ∅ None) (blob 4) (blob 8) _ _ _)) _).
    + by exists "m"%string.
    + reflexivity.
    + reflexivity.
    + reflexivity.
  - refine (proj2 (proj2 (compressed_artifact_cached_decompressed W "m.gz"
                            (sample_state 8 ∅ None) (blob 4) (blob 8) _ _ _)) _ _).
    + by exists "m"%string.
    + reflexivity.
    + reflexivity.
    + intros t. reflexivity.
    + vm_compute. discriminate.
Defined.

(** X14.  Caching never changes what [fetchData] returns: its completion is
    fixed by what the network answers to the request and by the
    decompressor.  Two calls that get the same answer complete alike,
    whatever their stores hold, whatever their budgets are and whichever of
    their store calls reject. *)
Theorem fetchData_result_ignores_store W1 W2 modelPath s1 s2 :
  responds W1 (clock s1) modelPath = responds W2 (clock s2) modelPath →
  pako_inflate W1 = pako_inflate W2 →
  (fetchData W1 modelPath s1).1 = (fetchData W2 modelPath s2).1.
Proof.
  intros Hnet Hinflate.
  rewrite !fetchData_outcome, !download_result, Hnet, Hinflate. done.
Qed.

Lemma fetchData_result_ignores_store_witness :
  (fetchData (sample_world (λ _, true)) "abcd"
     (sample_state 10 {[ "a"%string := blob 8 ]} None)).1
  = (fetchData (sample_world (λ _, false)) "abcd" (sample_state 2 ∅ None)).1.
Proof.
  apply (fetchData_result_ignores_store (sample_world (λ _, true))
           (sample_world (λ _, false)) "abcd"
           (sample_state 10 {[ "a"%string := blob 8 ]} None)
           (sample_state 2 ∅ None)); reflexivity.
Defined.
